(** * The radix-256 Patricia nodes of [trie/patricia.go]

    A shallow embedding of the two node types of the trie, [branch] and
    [leaf] (a leaf with [Ext = 1] is an extension), and of the methods of the
    [patricia] interface they implement: [descend], [ascend], [insert],
    [increase], [collapse], [blob], [hash], [serialize] and [deserialize].

    Conventions of the embedding.
    - A Go [[]byte] is the list of its bytes.  The nil slice and the empty
      slice carry the same bytes; the only place where the source tells them
      apart is the test [v == nil] of [branch.collapse], whose argument is
      therefore a [slice] (an optional list).
    - A run-time panic (index or slice bound out of range) is an outcome of
      its own, [Panics], distinct from a returned Go [error].
    - The [*list.List] stack is a list of nodes, front first: [PushBack]
      appends, [PushFront] conses, [Front] is the head.
    - [blake2b.Sum256] is written out after RFC 7693; [encoding/gob] is an
      interface ([Gob]) with the laws a proof needs stated as hypotheses. *)

From Stdlib Require Import String.
From Stdlib Require Import List ZArith Lia Bool Arith.
From Stdlib Require Import Init.Byte Strings.Byte.
Import ListNotations.

Local Open Scope nat_scope.

(** ** Bytes *)

(** Go's conversion [byte(i)] of an [int]: the low eight bits. *)
Definition byte_of_int (i : nat) : byte :=
  match Byte.of_nat (i mod 256) with
  | Some b => b
  | None => x00
  end.

Definition byte_of_Z (z : Z) : byte := byte_of_int (Z.to_nat (z mod 256)).
Definition Z_of_byte (b : byte) : Z := Z.of_nat (Byte.to_nat b).

(** ** golang.org/x/crypto/blake2b: [Sum256]

    BLAKE2b with a 32-byte digest and no key, on 64-bit words held in [Z]
    with the wrap-around written out. *)
Module blake2b.

Local Open Scope Z_scope.

Definition Size256 : nat := 32.
Definition BlockSize : nat := 128.

Definition w64 (x : Z) : Z := Z.land x (Z.ones 64).
Definition add64 (a b : Z) : Z := w64 (a + b).
Definition rotr64 (x : Z) (n : Z) : Z :=
  Z.lor (Z.shiftr x n) (w64 (Z.shiftl x (64 - n))).

Definition iv : list Z :=
  [ 0x6a09e667f3bcc908; 0xbb67ae8584caa73b; 0x3c6ef372fe94f82b;
    0xa54ff53a5f1d36f1; 0x510e527fade682d1; 0x9b05688c2b3e6c1f;
    0x1f83d9abfb41bd6b; 0x5be0cd19137e2179 ].

Definition precomputed : list (list nat) :=
  [ [0; 1; 2; 3; 4; 5; 6; 7; 8; 9; 10; 11; 12; 13; 14; 15];
    [14; 10; 4; 8; 9; 15; 13; 6; 1; 12; 0; 2; 11; 7; 5; 3];
    [11; 8; 12; 0; 5; 2; 15; 13; 10; 14; 3; 6; 7; 1; 9; 4];
    [7; 9; 3; 1; 13; 12; 11; 14; 2; 6; 5; 10; 4; 0; 15; 8];
    [9; 0; 5; 7; 2; 4; 10; 15; 14; 1; 11; 12; 6; 8; 3; 13];
    [2; 12; 6; 10; 0; 11; 8; 3; 4; 13; 7; 5; 15; 14; 1; 9];
    [12; 5; 1; 15; 14; 13; 4; 10; 0; 7; 6; 3; 9; 2; 8; 11];
    [13; 11; 7; 14; 12; 1; 3; 9; 5; 0; 15; 4; 8; 6; 2; 10];
    [6; 15; 14; 9; 11; 3; 0; 8; 12; 2; 13; 7; 1; 4; 10; 5];
    [10; 2; 8; 4; 7; 6; 1; 5; 15; 11; 9; 14; 3; 12; 13; 0];
    [0; 1; 2; 3; 4; 5; 6; 7; 8; 9; 10; 11; 12; 13; 14; 15];
    [14; 10; 4; 8; 9; 15; 13; 6; 1; 12; 0; 2; 11; 7; 5; 3] ]%nat.

Definition get (v : list Z) (i : nat) : Z := nth i v 0.
Definition set (v : list Z) (i : nat) (x : Z) : list Z :=
  firstn i v ++ x :: skipn (S i) v.

(** The mixing function G of the compression. *)
Definition mix (v : list Z) (a b c d : nat) (x y : Z) : list Z :=
  let va := add64 (add64 (get v a) (get v b)) x in
  let vd := rotr64 (Z.lxor (get v d) va) 32 in
  let vc := add64 (get v c) vd in
  let vb := rotr64 (Z.lxor (get v b) vc) 24 in
  let va := add64 (add64 va vb) y in
  let vd := rotr64 (Z.lxor vd va) 16 in
  let vc := add64 vc vd in
  let vb := rotr64 (Z.lxor vb vc) 63 in
  set (set (set (set v a va) b vb) c vc) d vd.

Definition round (m : list Z) (v : list Z) (s : list nat) : list Z :=
  let w i := get m (nth i s 0%nat) in
  let v := mix v 0 4 8 12 (w 0%nat) (w 1%nat) in
  let v := mix v 1 5 9 13 (w 2%nat) (w 3%nat) in
  let v := mix v 2 6 10 14 (w 4%nat) (w 5%nat) in
  let v := mix v 3 7 11 15 (w 6%nat) (w 7%nat) in
  let v := mix v 0 5 10 15 (w 8%nat) (w 9%nat) in
  let v := mix v 1 6 11 12 (w 10%nat) (w 11%nat) in
  let v := mix v 2 7 8 13 (w 12%nat) (w 13%nat) in
  mix v 3 4 9 14 (w 14%nat) (w 15%nat).

(** Little-endian load of the eight bytes of a word. *)
Definition load64 (bs : list byte) : Z :=
  fold_right (fun b acc => Z_of_byte b + 256 * acc) 0 bs.

Fixpoint words (n : nat) (bs : list byte) : list Z :=
  match n with
  | O => []
  | S n' => load64 (firstn 8 bs) :: words n' (skipn 8 bs)
  end.

Definition store64 (x : Z) : list byte :=
  map (fun j => byte_of_Z (Z.shiftr x (8 * Z.of_nat j))) (seq 0 8).

(** One compression of the 128-byte [block]; [t] is the byte counter and
    [final] the last-block flag. *)
Definition compress (h : list Z) (block : list byte) (t : Z) (final : bool)
  : list Z :=
  let m := words 16 block in
  let v := h ++ iv in
  let v := set v 12 (Z.lxor (get v 12) (w64 t)) in
  let v := set v 13 (Z.lxor (get v 13) (w64 (Z.shiftr t 64))) in
  let v := if final then set v 14 (Z.lxor (get v 14) (Z.ones 64)) else v in
  let v := fold_left (round m) precomputed v in
  map (fun i => Z.lxor (Z.lxor (get h i) (get v i)) (get v (i + 8)%nat))
      (seq 0 8).

(** The blocks of the message: every block but the last is full and is
    compressed with the flag off; the last one (empty for the empty
    message) is padded with zeros. *)
Fixpoint absorb (fuel : nat) (h : list Z) (data : list byte) (t : Z)
  : list Z :=
  match fuel with
  | O => h
  | S fuel' =>
      if (length data <=? BlockSize)%nat then
        compress h (data ++ repeat x00 (BlockSize - length data))
                 (t + Z.of_nat (length data)) true
      else
        absorb fuel' (compress h (firstn BlockSize data) (t + 128) false)
               (skipn BlockSize data) (t + 128)
  end.

Definition init256 : list Z :=
  set iv 0 (Z.lxor (get iv 0) (Z.lor 0x01010000 (Z.of_nat Size256))).

Definition Sum256 (data : list byte) : list byte :=
  let h := absorb (S (length data)) init256 data 0 in
  flat_map (fun i => store64 (get h i)) (seq 0 4).

End blake2b.

(** ** Outcomes of Go code *)

(** The errors of the package.  [Wrap] is [errors.Wrap]/[errors.Wrapf] of
    github.com/pkg/errors; the message is the format string as written in
    the source.  [ErrGob] stands for an error returned by encoding/gob. *)
Inductive error : Type :=
| ErrInvalidPatricia
| ErrPathDiverge
| ErrGob
| Wrap (cause : error) (msg : String.string).

(** [errors.Cause]: the innermost error. *)
Fixpoint Cause (e : error) : error :=
  match e with
  | Wrap c _ => Cause c
  | _ => e
  end.

(** A call either returns its results or panics. *)
Inductive outcome (A : Type) : Type :=
| Returns (a : A)
| Panics.
Arguments Returns {A} a.
Arguments Panics {A}.

Definition bind {A B : Type} (c : outcome A) (k : A -> outcome B) : outcome B :=
  match c with
  | Returns a => k a
  | Panics => Panics
  end.

Notation "x <- c ;; k" := (bind c (fun x => k))
  (at level 61, c at next level, right associativity).
Notation "' pat <- c ;; k" :=
  (bind c (fun x => match x with pat => k end))
  (at level 61, pat pattern, c at next level, right associativity).

(** [s[i]]: panics when [i] is out of range. *)
Definition index (s : list byte) (i : nat) : outcome byte :=
  match nth_error s i with
  | Some x => Returns x
  | None => Panics
  end.

(** [s[i:]]: panics when [i > len(s)]. *)
Definition slice_from (s : list byte) (i : nat) : outcome (list byte) :=
  if i <=? length s then Returns (skipn i s) else Panics.

(** [s[:j]] for [j <= len(s)], the only way the source uses it. *)
Definition slice_to (s : list byte) (j : nat) : outcome (list byte) :=
  if j <=? length s then Returns (firstn j s) else Panics.

(** [for i := 0; i < n; i++ { body }] over a loop state. *)
Definition for_range {S : Type} (n : nat) (body : S -> nat -> S) (init : S) : S :=
  fold_left body (seq 0 n) init.

(** ** The node types *)

Definition RADIX : nat := 256.

(** Modelled from the spec: [common.HashSize] is declared in package
    [common], which is not among the sources; the spec fixes node hashes at
    32 bytes, and [hash()] returns a [common.Hash32B]. *)
Definition HashSize : nat := 32.

Definition ptrcKey : Type := list byte.

(** A [[]byte] whose nil-ness is observed: [None] is [nil]. *)
Definition slice : Type := option (list byte).

(** [branch]: the array [Path [RADIX]ptrcKey], indexed by a byte, and
    [Value]. *)
Record branch : Type := mkBranch {
  branch_Path : byte -> ptrcKey;
  branch_Value : list byte
}.

(** [leaf]: [Ext], [Path] and [Value]. *)
Record leaf : Type := mkLeaf {
  leaf_Ext : byte;
  leaf_Path : ptrcKey;
  leaf_Value : list byte
}.

(** A value of interface type [patricia]: a [*branch] or a [*leaf]. *)
Inductive patricia : Type :=
| Branch (b : branch)
| Leaf (l : leaf).

(** [branch{}] *)
Definition branch_zero : branch :=
  {| branch_Path := fun _ => []; branch_Value := [] |}.

(** [b.Path[i] = x] *)
Definition set_Path (b : branch) (i : byte) (x : ptrcKey) : branch :=
  {| branch_Path := fun j => if Byte.eqb j i then x else branch_Path b j;
     branch_Value := branch_Value b |}.

(** ** encoding/gob

    What the package needs of gob: an encoder and a decoder for a struct
    type.  [Encode] gives the bytes written to the buffer or an error,
    [Decode] the decoded value or an error. *)
Class Gob (A : Type) : Type := {
  Encode : A -> error + list byte;
  Decode : list byte -> error + A
}.

(** The decoder gives back what the encoder was given. *)
Definition GobRoundTrip (A : Type) `{Gob A} : Prop :=
  forall (x : A) (stream : list byte),
    Encode x = inr stream -> Decode stream = inr x.

(** gob walks a [branch] by reflection: the 256 elements of the array
    [Path] in index order, then [Value]. *)
Definition branch_fields : Type := (list ptrcKey * list byte)%type.

(** The 256 slots of a branch, in index order. *)
Definition branch_slots (b : branch) : list ptrcKey :=
  map (fun i => branch_Path b (byte_of_int i)) (seq 0 RADIX).

Definition branch_to_gob (b : branch) : branch_fields :=
  (branch_slots b, branch_Value b).

Definition branch_of_gob (f : branch_fields) : branch :=
  {| branch_Path := fun i => nth (Byte.to_nat i) (fst f) [];
     branch_Value := snd f |}.

(** ** Methods of [branch] *)

Definition branch_descend (b : branch) (key : list byte)
  : outcome (list byte * nat * option error) :=
  k0 <- index key 0 ;;
  let node := branch_Path b k0 in
  if 0 <? length node then Returns (node, 1, None)
  else Returns ([], 0,
         Some (Wrap ErrInvalidPatricia "branch does not have path = %d"%string)).

(** [make([]byte, n)] followed by [copy(dst, src)]. *)
Definition make_copy (n : nat) (src : list byte) : list byte :=
  firstn n src ++ repeat x00 (n - length src).

Definition branch_ascend (b : branch) (key : list byte) (idx : byte)
  : branch * option error :=
  (set_Path b idx (make_copy HashSize key), None).

Definition branch_insert (b : branch) (k v : list byte) (stack : list patricia)
  : outcome (list patricia * option error) :=
  k0 <- index k 0 ;;
  let node := branch_Path b k0 in
  if 0 <? length node then
    Returns (stack,
      Some (Wrap ErrInvalidPatricia "branch already covers path = %d"%string))
  else
    k1 <- slice_from k 1 ;;
    let l := {| leaf_Ext := x00; leaf_Path := k1; leaf_Value := v |} in
    Returns (stack ++ [Leaf l], None).

Definition branch_increase (b : branch) (key : list byte) : nat * nat * nat :=
  (0, 0, 1).

Definition branch_trim (b : branch) (idx : byte) : branch :=
  set_Path b idx [].

(** The counting loop of [collapse]: state [(nb, key, value)]. *)
Definition count_step (b : branch) (st : nat * list byte * list byte) (i : nat)
  : nat * list byte * list byte :=
  let '(nb, key, value) := st in
  if 0 <? length (branch_Path b (byte_of_int i)) then
    (S nb, [byte_of_int i], branch_Path b (byte_of_int i))
  else st.

Definition branch_collapse (b : branch) (k : list byte) (v : slice)
                           (idx : byte) (childClps : bool)
  : branch * (list byte * slice * bool) :=
  if negb childClps then (b, (k, v, false))
  else
    let '(b, k) :=
      match v with
      | None => (branch_trim b idx, [])
      | Some _ => (b, k)
      end in
    let '(nb, key, value) := for_range RADIX (count_step b) (0, [], []) in
    if nb =? 1 then (b, (key ++ k, Some value, true))
    else (b, (k, v, false)).

Definition branch_blob (b : branch) : list byte * option error :=
  ([], Some (Wrap ErrInvalidPatricia "branch does not store value"%string)).

Definition branch_hash (b : branch) : list byte :=
  let stream :=
    for_range RADIX
      (fun stream i => stream ++ branch_Path b (byte_of_int i)) [] in
  let stream := stream ++ branch_Value b in
  blake2b.Sum256 stream.

Definition branch_serialize `{Gob branch_fields} (b : branch)
  : list byte * option error :=
  match Encode (branch_to_gob b) with
  | inl err => ([], Some err)
  | inr stream => (x02 :: stream, None)
  end.

(** The receiver is reset, then decoded into; on an error the receiver is
    left as gob left it, which is not modelled. *)
Definition branch_deserialize `{Gob branch_fields} (stream : list byte)
  : outcome (error + branch) :=
  rest <- slice_from stream 1 ;;
  match Decode rest with
  | inl err => Returns (inl err)
  | inr f => Returns (inr (branch_of_gob f))
  end.

(** ** Methods of [leaf] *)

Definition leaf_hash (l : leaf) : list byte :=
  let stream := [leaf_Ext l] ++ leaf_Path l in
  let stream := stream ++ leaf_Value l in
  blake2b.Sum256 stream.

(** [ptr.hash()] on an interface value. *)
Definition patricia_hash (n : patricia) : list byte :=
  match n with
  | Branch b => branch_hash b
  | Leaf l => leaf_hash l
  end.

(** The loop of [descend], on what is left of [l.Path] and of [key] from
    position [match] on:
    [for l.Path[match] == key[match] { match++; if match == len(l.Path) { return l.Value, match, nil } }]
    and, after it, [return nil, match, ErrPathDiverge].  Reading either
    slice past its end panics. *)
Fixpoint descend_loop (value : list byte) (path key : list byte) (m : nat)
  : outcome (list byte * nat * option error) :=
  match path, key with
  | p :: path', c :: key' =>
      if Byte.eqb p c then
        match path' with
        | [] => Returns (value, S m, None)
        | _ :: _ => descend_loop value path' key' (S m)
        end
      else Returns ([], m, Some ErrPathDiverge)
  | _, _ => Panics
  end.

Definition leaf_descend (l : leaf) (key : list byte)
  : outcome (list byte * nat * option error) :=
  descend_loop (leaf_Value l) (leaf_Path l) key 0.


(** The loop of [insert] and of [increase], on what is left of both slices
    from position [match] on: [for l.Path[match] == k[match] { match++ }].
    It has no bound of its own: it ends at the first difference, or panics
    when either slice is read past its end. *)
Fixpoint match_loop (path k : list byte) (m : nat) : outcome nat :=
  match path, k with
  | p :: path', c :: k' =>
      if Byte.eqb p c then match_loop path' k' (S m) else Returns m
  | _, _ => Panics
  end.

(** [stack.Front()] followed by the use of its [Value]: a nil element
    panics. *)
Definition Front (stack : list patricia) : outcome patricia :=
  match stack with
  | n :: _ => Returns n
  | [] => Panics
  end.

Definition PushBack (stack : list patricia) (n : patricia) : list patricia :=
  stack ++ [n].

Definition PushFront (stack : list patricia) (n : patricia) : list patricia :=
  n :: stack.

(** [split]: [k] is the key from the diverging byte on.  The calls of the
    logger read no index that the code around them does not read. *)
Definition leaf_split (l : leaf) (m : nat) (k v : list byte)
                      (stack : list patricia)
  : outcome (list patricia * option error) :=
  divPath <- slice_from (leaf_Path l) m ;;
  k1 <- slice_from k 1 ;;
  let l1 := {| leaf_Ext := x00; leaf_Path := k1; leaf_Value := v |} in
  let hashl := leaf_hash l1 in
  k0 <- index k 0 ;;
  let b := set_Path branch_zero k0 hashl in
  '(b, node) <-
    match length divPath with
    | 1 =>
        d0 <- index divPath 0 ;;
        Returns (set_Path b d0 (leaf_Value l), None)
    | 2 =>
        d1 <- index divPath 1 ;;
        let b1 := set_Path branch_zero d1 (leaf_Value l) in
        let hashb := branch_hash b1 in
        d0 <- index divPath 0 ;;
        Returns (set_Path b d0 hashb, Some (Branch b1))
    | _ =>
        d <- slice_from divPath 1 ;;
        let e := {| leaf_Ext := x01; leaf_Path := d;
                    leaf_Value := leaf_Value l |} in
        let hashe := leaf_hash e in
        d0 <- index divPath 0 ;;
        Returns (set_Path b d0 hashe, Some (Leaf e))
    end ;;
  let stack := PushBack stack (Branch b) in
  let stack :=
    match node with
    | Some n => PushBack stack n
    | None => stack
    end in
  let stack := PushBack stack (Leaf l1) in
  Returns (stack, None).

Definition leaf_insert (l : leaf) (k v : list byte) (stack : list patricia)
  : outcome (list patricia * option error) :=
  m <- match_loop (leaf_Path l) k 0 ;;
  if m =? length (leaf_Path l) then
    Returns (stack,
      Some (Wrap ErrInvalidPatricia
              "leaf already has total matching path = %x"%string))
  else if Byte.eqb (leaf_Ext l) x01 then
    if length (leaf_Path l) =? 1 then
      Returns (stack,
        Some (Wrap ErrInvalidPatricia
                "ext should not have path length = 1"%string))
    else
      km <- slice_from k m ;;
      '(stack, err) <- leaf_split l m km v stack ;;
      match err with
      | Some e => Returns (stack, Some e)
      | None =>
          n <- Front stack ;;
          let hash := patricia_hash n in
          if m =? 1 then
            p0 <- index (leaf_Path l) 0 ;;
            let b := set_Path branch_zero p0 hash in
            Returns (PushFront stack (Branch b), None)
          else if 1 <? m then
            p <- slice_to (leaf_Path l) m ;;
            let e := {| leaf_Ext := x01; leaf_Path := p;
                        leaf_Value := hash |} in
            Returns (PushFront stack (Leaf e), None)
          else Returns (stack, None)
      end
  else
    p1 <- slice_from (leaf_Path l) (m + 1) ;;
    let l1 := {| leaf_Ext := x00; leaf_Path := p1;
                 leaf_Value := leaf_Value l |} in
    let hashl1 := leaf_hash l1 in
    k1 <- slice_from k (m + 1) ;;
    let l2 := {| leaf_Ext := x00; leaf_Path := k1; leaf_Value := v |} in
    let hashl2 := leaf_hash l2 in
    pm <- index (leaf_Path l) m ;;
    let b := set_Path branch_zero pm hashl1 in
    km <- index k m ;;
    let b := set_Path b km hashl2 in
    let stack := PushBack stack (Branch b) in
    let stack := PushBack stack (Leaf l1) in
    let stack := PushBack stack (Leaf l2) in
    if 0 <? m then
      let hashb := branch_hash b in
      kp <- slice_to k m ;;
      let e := {| leaf_Ext := x01; leaf_Path := kp; leaf_Value := hashb |} in
      Returns (PushFront stack (Leaf e), None)
    else Returns (stack, None).

Definition leaf_increase (l : leaf) (key : list byte)
  : outcome (nat * nat * nat) :=
  m <- match_loop (leaf_Path l) key 0 ;;
  if 0 <? m then Returns (1, 1, 2) else Returns (1, 0, 2).

Definition leaf_collapse (l : leaf) (k : list byte) (v : slice)
                         (idx : byte) (childCollapse : bool)
  : list byte * slice * bool :=
  if negb childCollapse then (k, v, false)
  else (leaf_Path l ++ k, v, true).

Definition leaf_blob (l : leaf) : list byte * option error :=
  if Byte.eqb (leaf_Ext l) x01 then
    ([], Some (Wrap ErrInvalidPatricia "extension does not store value"%string))
  else (leaf_Value l, None).

Definition leaf_serialize `{Gob leaf} (l : leaf) : list byte * option error :=
  match Encode l with
  | inl err => ([], Some err)
  | inr stream => (leaf_Ext l :: stream, None)
  end.

Definition leaf_deserialize `{Gob leaf} (stream : list byte)
  : outcome (error + leaf) :=
  rest <- slice_from stream 1 ;;
  match Decode rest with
  | inl err => Returns (inl err)
  | inr l => Returns (inr l)
  end.

(** * Vocabulary of the properties

    The predicates and the example nodes that the statements below are
    written with. *)

(** ** For C1: the pre-image of the node hash *)

(** The encoding a node is hashed over, in the spec's words: all slots in
    index order, then [Value], for a branch; the [Ext] tag, the path
    fragment, then the value or child hash, for a leaf or an extension. *)
Definition hash_encoding (n : patricia) : list byte :=
  match n with
  | Branch b => concat (branch_slots b) ++ branch_Value b
  | Leaf l => leaf_Ext l :: leaf_Path l ++ leaf_Value l
  end.

(** ** For C2: [branch.collapse] *)

(** Slot [i] passes the test [len(b.Path[i]) > 0] of the counting loop. *)
Definition occupied (b : branch) (i : nat) : bool :=
  0 <? length (branch_Path b (byte_of_int i)).

(** Exactly one slot of [b] is non-empty, and it is slot [c]. *)
Definition only_slot (b : branch) (c : byte) : Prop :=
  0 < length (branch_Path b c) /\
  forall j : byte, j <> c -> branch_Path b j = [].

(** What [collapse] does to the receiver and to [k] before it counts: with
    [v == nil] the slot at [index] is trimmed and [k] is set to nil. *)
Definition collapse_branch (b : branch) (v : slice) (idx : byte) : branch :=
  match v with
  | None => branch_trim b idx
  | Some _ => b
  end.

Definition collapse_key (k : list byte) (v : slice) : list byte :=
  match v with
  | None => []
  | Some _ => k
  end.

(** The claim in the spec's words: the key handed upward is [i ++ k] with
    the [k] that came in, and when the branch does not collapse the slot at
    [index] is updated to the new child hash (so that it holds a hash). *)
Definition collapse_as_specified (b : branch) (k : list byte) (v : slice)
           (idx : byte) (childClps : bool) : Prop :=
  let out := branch_collapse b k v idx childClps in
  let b' := collapse_branch b v idx in
  (childClps = false -> snd out = (k, v, false)) /\
  (childClps = true ->
   (forall c, only_slot b' c ->
              snd out = ([c] ++ k, Some (branch_Path b' c), true)) /\
   ((forall c, ~ only_slot b' c) ->
    snd out = (k, v, false) /\
    length (branch_Path (fst out) idx) = HashSize)).

(** A branch with two children, at slots 1 and 2. *)
Definition two_children : branch :=
  set_Path (set_Path branch_zero x01 [x0a]) x02 [x0b].

(** ** For the comparison loops of [leaf] *)

(** [s[i]] where the index is known to be in range. *)
Definition byte_at (s : list byte) (i : nat) : byte := nth i s x00.

(** [path] and [k] agree on their first [m] bytes and both go on with
    different bytes at position [m]: [m] is the length of their longest
    common prefix, and neither is a prefix of the other. *)
Definition diverge_at (path k : list byte) (m : nat) : Prop :=
  m < length path /\ m < length k /\
  firstn m path = firstn m k /\
  byte_at path m <> byte_at k m.

(** ** For C10: the unbounded loop of [leaf.insert] *)

(** The error of the guard [match == len(l.Path)] of [insert]. *)
Definition total_match_error : error :=
  Wrap ErrInvalidPatricia "leaf already has total matching path = %x"%string.

(** ** For C7: [branch.descend] *)

(** The claim in the spec's words: an empty slot is reported as a
    divergence, the signal [ErrPathDiverge] of [descend]. *)
Definition branch_descend_as_specified (b : branch) (key : list byte) : Prop :=
  forall k0 rest, key = k0 :: rest ->
    (0 < length (branch_Path b k0) ->
     branch_descend b key = Returns (branch_Path b k0, 1, None)) /\
    (branch_Path b k0 = [] ->
     exists e, branch_descend b key = Returns ([], 0, Some e) /\
               Cause e = ErrPathDiverge).

(** ** For C5 and C3: [insert] on a leaf *)

(** The nodes that [insert] makes out of a leaf. *)
Definition leaf_L1 (l : leaf) (m : nat) : leaf :=
  {| leaf_Ext := x00; leaf_Path := skipn (m + 1) (leaf_Path l);
     leaf_Value := leaf_Value l |}.

Definition leaf_L2 (k v : list byte) (m : nat) : leaf :=
  {| leaf_Ext := x00; leaf_Path := skipn (m + 1) k; leaf_Value := v |}.

Definition leaf_B (l : leaf) (k v : list byte) (m : nat) : branch :=
  set_Path (set_Path branch_zero (byte_at (leaf_Path l) m)
                     (leaf_hash (leaf_L1 l m)))
           (byte_at k m) (leaf_hash (leaf_L2 k v m)).

Definition leaf_E (l : leaf) (k v : list byte) (m : nat) : leaf :=
  {| leaf_Ext := x01; leaf_Path := firstn m k;
     leaf_Value := branch_hash (leaf_B l k v m) |}.

(** The leaf [([1; 2], "a")]; the examples insert the key tail [[1; 3]]. *)
Definition leaf_12 : leaf :=
  {| leaf_Ext := x00; leaf_Path := [x01; x02]; leaf_Value := ["a"%byte] |}.

(** ** For C4: [insert] on an extension *)

(** The nodes of [split], by the length of [divPath = l.Path[m:]]. *)
Definition split_leaf (k v : list byte) (m : nat) : leaf :=
  {| leaf_Ext := x00; leaf_Path := skipn (m + 1) k; leaf_Value := v |}.

Definition split_helper (l : leaf) (m : nat) : option patricia :=
  match length (leaf_Path l) - m with
  | 1 => None
  | 2 => Some (Branch (set_Path branch_zero (byte_at (leaf_Path l) (m + 1))
                                (leaf_Value l)))
  | _ => Some (Leaf {| leaf_Ext := x01;
                       leaf_Path := skipn (m + 1) (leaf_Path l);
                       leaf_Value := leaf_Value l |})
  end.

Definition split_link (l : leaf) (m : nat) : list byte :=
  match split_helper l m with
  | None => leaf_Value l
  | Some n => patricia_hash n
  end.

Definition split_branch (l : leaf) (k v : list byte) (m : nat) : branch :=
  set_Path (set_Path branch_zero (byte_at k m) (leaf_hash (split_leaf k v m)))
           (byte_at (leaf_Path l) m) (split_link l m).

Definition helper_list (n : option patricia) : list patricia :=
  match n with
  | Some n => [n]
  | None => []
  end.

Definition split_stack (l : leaf) (k v : list byte) (m : nat)
           (stack : list patricia) : list patricia :=
  stack ++ [Branch (split_branch l k v m)] ++ helper_list (split_helper l m) ++
        [Leaf (split_leaf k v m)].

(** The node that [insert] puts in front of the split, linked to [hash]. *)
Definition insert_top (l : leaf) (m : nat) (hash : list byte) : list patricia :=
  if m =? 1 then
    [Branch (set_Path branch_zero (byte_at (leaf_Path l) 0) hash)]
  else if 1 <? m then
    [Leaf {| leaf_Ext := x01; leaf_Path := firstn m (leaf_Path l);
             leaf_Value := hash |}]
  else [].

(** [stack.Front()] after the split: the first node of the stack that was
    passed in, and the branch of the split when that stack was empty. *)
Definition front_after_split (B : branch) (stack : list patricia) : patricia :=
  hd (Branch B) stack.




(** The extension [([1; 2; 3], aaa)], the key tail [[1; 7; 8; 9]] and a
    stack that already holds the leaf [([1; 2], "a")]. *)
Definition ext_123 : leaf :=
  {| leaf_Ext := x01; leaf_Path := [x01; x02; x03];
     leaf_Value := ["a"; "a"; "a"]%byte |}.

(** The extension [([1; 2; 3; 4; 5], aaa)]; the example inserts the key
    tail [[1; 2; 9; 9; 9; 9]]. *)
Definition ext_12345 : leaf :=
  {| leaf_Ext := x01; leaf_Path := [x01; x02; x03; x04; x05];
     leaf_Value := ["a"; "a"; "a"]%byte |}.

(** ** For C8 and C9: [serialize] and [deserialize] *)

(** Two branches with the same contents: the same 256 slots and the same
    [Value]. *)
Definition branch_equiv (b1 b2 : branch) : Prop :=
  (forall c : byte, branch_Path b1 c = branch_Path b2 c) /\
  branch_Value b1 = branch_Value b2.


(** A reference codec: an instance of [Gob] for the two struct types,
    which shows that the round-trip law can be met.  It is not gob's wire
    format: a struct is the list of its fields, every byte of a field is
    written after the mark 1, the mark 2 ends a field and the mark 0 ends
    the list. *)
Module RefGob.

Definition esc (f : list byte) : list byte :=
  flat_map (fun c => [x01; c]) f.

Fixpoint enc_fields (fs : list (list byte)) : list byte :=
  match fs with
  | [] => [x00]
  | f :: fs' => esc f ++ x02 :: enc_fields fs'
  end.

Fixpoint dec_fields (s : list byte) : option (list (list byte)) :=
  match s with
  | [] => None
  | t :: rest =>
      if Byte.eqb t x00 then Some []
      else if Byte.eqb t x02 then
        match dec_fields rest with
        | Some fs => Some ([] :: fs)
        | None => None
        end
      else if Byte.eqb t x01 then
        match rest with
        | c :: rest' =>
            match dec_fields rest' with
            | Some (f :: fs) => Some ((c :: f) :: fs)
            | _ => None
            end
        | [] => None
        end
      else None
  end.

Definition gob_leaf : Gob leaf :=
  {| Encode := fun l =>
       inr (enc_fields [[leaf_Ext l]; leaf_Path l; leaf_Value l]);
     Decode := fun s =>
       match dec_fields s with
       | Some [[e]; p; v] =>
           inr {| leaf_Ext := e; leaf_Path := p; leaf_Value := v |}
       | _ => inl ErrGob
       end |}.

Definition gob_branch : Gob branch_fields :=
  {| Encode := fun f => inr (enc_fields (fst f ++ [snd f]));
     Decode := fun s =>
       match dec_fields s with
       | Some fs =>
           match fs with
           | [] => inl ErrGob
           | _ :: _ => inr (removelast fs, last fs [])
           end
       | None => inl ErrGob
       end |}.

End RefGob.

(** The claim in the spec's words: an input whose first byte is not one of
    the tags 0, 1 and 2 is refused. *)
Definition deserialize_checks_tag `{Gob leaf} `{Gob branch_fields} : Prop :=
  forall (tag : byte) (rest : list byte),
    tag <> x00 -> tag <> x01 -> tag <> x02 ->
    (exists err, leaf_deserialize (tag :: rest) = Returns (inl err)) /\
    (exists err, branch_deserialize (tag :: rest) = Returns (inl err)).

(** ** For the walks through the nodes of an insert *)

(** [ptr.descend(key)] on an interface value. *)
Definition patricia_descend (n : patricia) (key : list byte)
  : outcome (list byte * nat * option error) :=
  match n with
  | Branch b => branch_descend b key
  | Leaf l => leaf_descend l key
  end.

(** Descending through [nodes] with [key]: every node but the last
    returns, without error, the hash of the node after it, and is followed
    with what it left of the key; the last node returns [target] without
    error; [consumed] bytes of the key are used up in all. *)
Fixpoint descends_to (nodes : list patricia) (key target : list byte)
         (consumed : nat) : Prop :=
  match nodes with
  | [] => False
  | n :: rest =>
      match rest with
      | [] => patricia_descend n key = Returns (target, consumed, None)
      | n' :: _ =>
          exists c,
            patricia_descend n key = Returns (patricia_hash n', c, None) /\
            c <= consumed /\
            descends_to rest (skipn c key) target (consumed - c)
      end
  end.

(** The numbers of branches, extensions and leaves among [nodes], in the
    order of the results of [increase]. *)
Definition is_branch (n : patricia) : bool :=
  match n with
  | Branch _ => true
  | Leaf _ => false
  end.

Definition is_extension (n : patricia) : bool :=
  match n with
  | Branch _ => false
  | Leaf l => Byte.eqb (leaf_Ext l) x01
  end.

Definition is_leaf (n : patricia) : bool :=
  match n with
  | Branch _ => false
  | Leaf l => Byte.eqb (leaf_Ext l) x00
  end.

Definition count_nodes (nodes : list patricia) : nat * nat * nat :=
  (length (filter is_branch nodes),
   length (filter is_extension nodes),
   length (filter is_leaf nodes)).

(** The leaf [([1; 2; 3], "a")]; the example inserts the key tail
    [[1; 7; 8]]. *)
Definition leaf_123 : leaf :=
  {| leaf_Ext := x00; leaf_Path := [x01; x02; x03]; leaf_Value := ["a"%byte] |}.

(** An extension over the branch [two_children]. *)
Definition ext_over_two_children : leaf :=
  {| leaf_Ext := x01; leaf_Path := [x09; x09];
     leaf_Value := branch_hash two_children |}.

(** * The DID document of package [did]

    The document type and its methods that work on the list of services
    and on the identifier.  A value of type [interface{}] is one of the
    values that the package stores in such a field; [errors.New] gives an
    error that carries its message. *)
Module did.

Definition DIDPrefix : string := "did:io:".
Definition DIDAuthType : string := "JsonWebKey2020".
Definition DIDOwner : string := "#owner".
Definition KnownDIDContext : string := "https://www.w3.org/ns/did/v1".
Definition JWSDIDContext : string := "https://w3id.org/security/suites/jws-2020/v1".
Definition Secp256k1DIDContext : string :=
  "https://w3id.org/security/suites/secp256k1-2019/v1".

Record secp256k1PublicKey : Type := mkJwk {
  jwk_Kty : string;
  jwk_Crv : string;
  jwk_X : string;
  jwk_Y : string
}.

(** [interface{}]: nil, a string (a [verificationMethodSet] as
    [NewDIDDoc] makes it), a [[]string] (the [Context]) or a
    [*secp256k1PublicKey]. *)
Inductive dyn : Type :=
| DynNil
| DynString (s : string)
| DynStrings (l : list string)
| DynJwk (k : secp256k1PublicKey).

Definition verificationMethodSet : Type := dyn.

Record verificationMethod : Type := mkMethod {
  method_ID : string;
  method_Type : string;
  method_Controller : string;
  method_PublicKeyJwk : dyn
}.

Record serviceStruct : Type := mkService {
  service_ID : string;
  service_Type : string;
  service_ServiceEndpoint : string;
  service_RecipientKeys : list verificationMethodSet;
  service_Accept : list string
}.

Record Doc : Type := mkDoc {
  doc_Context : dyn;
  doc_ID : string;
  doc_Controller : string;
  doc_VerificationMethod : list verificationMethod;
  doc_Authentication : list verificationMethodSet;
  doc_AssertionMethod : list verificationMethodSet;
  doc_Service : list serviceStruct;
  doc_KeyAgreement : list verificationMethodSet
}.

Inductive did_error : Type :=
| ErrorsNew (msg : string).

(** [serviceStruct{}], what [make] fills a slice with. *)
Definition service_zero : serviceStruct :=
  {| service_ID := ""; service_Type := ""; service_ServiceEndpoint := "";
     service_RecipientKeys := []; service_Accept := [] |}.

(** [doc.Service = services] *)
Definition set_Service (doc : Doc) (services : list serviceStruct) : Doc :=
  {| doc_Context := doc_Context doc; doc_ID := doc_ID doc;
     doc_Controller := doc_Controller doc;
     doc_VerificationMethod := doc_VerificationMethod doc;
     doc_Authentication := doc_Authentication doc;
     doc_AssertionMethod := doc_AssertionMethod doc;
     doc_Service := services;
     doc_KeyAgreement := doc_KeyAgreement doc |}.

(** [doc.ID + "#" + tag] *)
Definition service_id (doc : Doc) (tag : string) : string :=
  ((doc_ID doc ++ "#") ++ tag)%string.

(** The loop of [AddService]: the first service with the identifier gets
    the type and the endpoint, and the method returns; [None] when the loop
    runs to its end. *)
Fixpoint update_service (id serviceType endpoint : string)
         (services : list serviceStruct) : option (list serviceStruct) :=
  match services with
  | [] => None
  | service :: rest =>
      if String.eqb (service_ID service) id then
        Some ({| service_ID := service_ID service;
                 service_Type := serviceType;
                 service_ServiceEndpoint := endpoint;
                 service_RecipientKeys := service_RecipientKeys service;
                 service_Accept := service_Accept service |} :: rest)
      else
        match update_service id serviceType endpoint rest with
        | Some rest' => Some (service :: rest')
        | None => None
        end
  end.

(** The service that [AddService] makes. *)
Definition new_service (doc : Doc) (id serviceType endpoint : string)
  : serviceStruct :=
  {| service_ID := id; service_Type := serviceType;
     service_ServiceEndpoint := endpoint;
     service_RecipientKeys := doc_Authentication doc;
     service_Accept := ["didcomm/v2"%string] |}.

(** [AddService]: the receiver after the call.  A nil [Service] and an
    empty one give the same list of one service. *)
Definition AddService (doc : Doc) (tag serviceType endpoint : string) : Doc :=
  let id := service_id doc tag in
  match doc_Service doc with
  | [] => set_Service doc [new_service doc id serviceType endpoint]
  | _ :: _ =>
      match update_service id serviceType endpoint (doc_Service doc) with
      | Some services => set_Service doc services
      | None =>
          set_Service doc
            (doc_Service doc ++ [new_service doc id serviceType endpoint])
      end
  end.

(** [services[count] = x], for [count] in range. *)
Fixpoint store {A : Type} (s : list A) (count : nat) (x : A) : list A :=
  match s, count with
  | [], _ => []
  | _ :: s', O => x :: s'
  | y :: s', S count' => y :: store s' count' x
  end.

(** The loop of [RemoveService] over what is left of [doc.Service], with
    the slice [services] and [count]; [None] when it returns the error. *)
Fixpoint remove_loop (id : string) (rest services : list serviceStruct)
         (count : nat) : option (list serviceStruct) :=
  match rest with
  | [] => Some services
  | service :: rest' =>
      if negb (String.eqb (service_ID service) id) then
        if count =? length services then None
        else remove_loop id rest' (store services count service) (S count)
      else remove_loop id rest' services count
  end.

(** [RemoveService]: the receiver after the call and the error. *)
Definition RemoveService (doc : Doc) (tag : string) : Doc * option did_error :=
  let id := service_id doc tag in
  if length (doc_Service doc) =? 0 then
    (doc, Some (ErrorsNew "service not exists"))
  else
    let services := repeat service_zero (length (doc_Service doc) - 1) in
    match remove_loop id (doc_Service doc) services 0 with
    | None => (doc, Some (ErrorsNew "service not exists"))
    | Some services => (set_Service doc services, None)
    end.

(** [s[i:]] on a string: panics when [i > len(s)]. *)
Definition string_from (s : string) (i : nat) : outcome string :=
  if i <=? String.length s then
    Returns (String.substring i (String.length s - i) s)
  else Panics.

(** [Owner], over [common.HexToAddress] of go-ethereum. *)
Definition Owner {address : Type} (HexToAddress : string -> address)
           (doc : Doc) : outcome address :=
  hex <- string_from (doc_ID doc) 7 ;;
  Returns (HexToAddress hex).

(** The services other than the one called [id], in their order. *)
Definition others (id : string) (services : list serviceStruct)
  : list serviceStruct :=
  filter (fun s => negb (String.eqb (service_ID s) id)) services.

(** A document with the two services [did:io:0x01#a] and [did:io:0x01#b]. *)
Definition doc_ab : Doc :=
  {| doc_Context := DynNil; doc_ID := "did:io:0x01"; doc_Controller := "";
     doc_VerificationMethod := []; doc_Authentication := [DynString "k"];
     doc_AssertionMethod := [];
     doc_Service :=
       [ {| service_ID := "did:io:0x01#a"; service_Type := "t";
            service_ServiceEndpoint := "e"; service_RecipientKeys := [];
            service_Accept := [] |};
         {| service_ID := "did:io:0x01#b"; service_Type := "t";
            service_ServiceEndpoint := "e"; service_RecipientKeys := [];
            service_Accept := [] |} ];
     doc_KeyAgreement := [] |}.

End did.

(** * Properties *)

(** ** Bytes and slices *)

Lemma eqb_eq (x y : byte) : Byte.eqb x y = true <-> x = y.
Proof.
  split; [apply Byte.byte_dec_bl | apply Byte.byte_dec_lb].
Qed.

Lemma eqb_refl (x : byte) : Byte.eqb x x = true.
Proof. now apply eqb_eq. Qed.

Lemma eqb_neq (x y : byte) : Byte.eqb x y = false <-> x <> y.
Proof.
  rewrite <- eqb_eq. destruct (Byte.eqb x y); split; congruence.
Qed.

Lemma byte_of_int_to_nat (c : byte) : byte_of_int (Byte.to_nat c) = c.
Proof.
  unfold byte_of_int.
  pose proof (Byte.to_nat_bounded c) as Hb.
  rewrite Nat.mod_small by lia.
  now rewrite Byte.of_to_nat.
Qed.

Lemma to_nat_byte_of_int (i : nat) : i < 256 -> Byte.to_nat (byte_of_int i) = i.
Proof.
  intros Hi. unfold byte_of_int. rewrite Nat.mod_small by exact Hi.
  destruct (Byte.of_nat i) as [c|] eqn:E.
  - now apply Byte.to_of_nat.
  - apply Byte.of_nat_None_iff in E. lia.
Qed.

Lemma set_Path_same (b : branch) (i : byte) (x : ptrcKey) :
  branch_Path (set_Path b i x) i = x.
Proof. simpl. now rewrite eqb_refl. Qed.

Lemma set_Path_other (b : branch) (i j : byte) (x : ptrcKey) :
  j <> i -> branch_Path (set_Path b i x) j = branch_Path b j.
Proof. intros H. simpl. apply eqb_neq in H. now rewrite H. Qed.

Lemma index_nth (s : list byte) (i : nat) (d : byte) :
  i < length s -> index s i = Returns (nth i s d).
Proof.
  intros H. unfold index.
  destruct (nth_error s i) as [x|] eqn:E.
  - now rewrite (nth_error_nth _ _ d E).
  - apply nth_error_None in E. lia.
Qed.

Lemma index_out (s : list byte) (i : nat) :
  length s <= i -> index s i = Panics.
Proof.
  intros H. unfold index. now apply nth_error_None in H as ->.
Qed.

Lemma slice_from_in (s : list byte) (i : nat) :
  i <= length s -> slice_from s i = Returns (skipn i s).
Proof.
  intros H. unfold slice_from. apply Nat.leb_le in H. now rewrite H.
Qed.

Lemma slice_to_in (s : list byte) (j : nat) :
  j <= length s -> slice_to s j = Returns (firstn j s).
Proof.
  intros H. unfold slice_to. apply Nat.leb_le in H. now rewrite H.
Qed.

(** ** C1: the pre-image of the node hash *)

Lemma branch_slots_length (b : branch) : length (branch_slots b) = RADIX.
Proof. unfold branch_slots. now rewrite length_map, length_seq. Qed.

Lemma branch_slots_nth (b : branch) (c : byte) :
  nth (Byte.to_nat c) (branch_slots b) [] = branch_Path b c.
Proof.
  unfold branch_slots.
  pose proof (Byte.to_nat_bounded c) as Hb.
  rewrite (nth_indep _ [] (branch_Path b (byte_of_int 0)))
    by (rewrite length_map, length_seq; unfold RADIX; lia).
  rewrite (map_nth (fun i => branch_Path b (byte_of_int i)) (seq 0 RADIX) 0).
  rewrite seq_nth by (unfold RADIX; lia).
  simpl. now rewrite byte_of_int_to_nat.
Qed.

Lemma append_loop (f : nat -> list byte) (l : list nat) (acc : list byte) :
  fold_left (fun stream i => stream ++ f i) l acc = acc ++ concat (map f l).
Proof.
  revert acc. induction l as [|i l IH]; intros acc; simpl.
  - now rewrite app_nil_r.
  - now rewrite IH, app_assoc.
Qed.

(** RFC 7693 test vectors for the digest. *)
Example Sum256_empty :
  map Z_of_byte (blake2b.Sum256 []) =
  [0x0e; 0x57; 0x51; 0xc0; 0x26; 0xe5; 0x43; 0xb2; 0xe8; 0xab; 0x2e; 0xb0;
   0x60; 0x99; 0xda; 0xa1; 0xd1; 0xe5; 0xdf; 0x47; 0x77; 0x8f; 0x77; 0x87;
   0xfa; 0xab; 0x45; 0xcd; 0xf1; 0x2f; 0xe3; 0xa8]%Z.
Proof. vm_compute. reflexivity. Qed.

Example Sum256_abc :
  map Z_of_byte (blake2b.Sum256 ["a"; "b"; "c"]%byte) =
  [0xbd; 0xdd; 0x81; 0x3c; 0x63; 0x42; 0x39; 0x72; 0x31; 0x71; 0xef; 0x3f;
   0xee; 0x98; 0x57; 0x9b; 0x94; 0x96; 0x4e; 0x3b; 0xb1; 0xcb; 0x3e; 0x42;
   0x72; 0x62; 0xc8; 0xc0; 0x68; 0xd5; 0x23; 0x19]%Z.
Proof. vm_compute. reflexivity. Qed.

Lemma Sum256_length (data : list byte) :
  length (blake2b.Sum256 data) = HashSize.
Proof. reflexivity. Qed.

(** C1. The hash of a node is the BLAKE2b-256 digest of its encoding: for
    a branch the 256 slots in index order (slot [c] is at position [c])
    followed by [Value]; for a leaf or an extension the [Ext] byte, the
    path fragment and then the value or child hash. *)
Theorem hash_is_digest_of_encoding (n : patricia) :
  patricia_hash n = blake2b.Sum256 (hash_encoding n) /\
  match n with
  | Branch b =>
      length (branch_slots b) = 256 /\
      forall c : byte, nth (Byte.to_nat c) (branch_slots b) [] = branch_Path b c
  | Leaf l => hash_encoding n = [leaf_Ext l] ++ leaf_Path l ++ leaf_Value l
  end.
Proof.
  destruct n as [b|l]; cbn [patricia_hash hash_encoding].
  - split; [|split].
    + unfold branch_hash, for_range. rewrite append_loop. reflexivity.
    + apply branch_slots_length.
    + apply branch_slots_nth.
  - split; reflexivity.
Qed.

(** ** C2: [branch.collapse] *)

Lemma count_fold (b : branch) (l : list nat) :
  forall nb key value,
    fold_left (count_step b) l (nb, key, value) =
    let ne := filter (occupied b) l in
    (nb + length ne,
     match rev ne with [] => key | i :: _ => [byte_of_int i] end,
     match rev ne with
     | [] => value
     | i :: _ => branch_Path b (byte_of_int i)
     end).
Proof.
  induction l as [|a l IH]; intros nb key value.
  - cbn. now rewrite Nat.add_0_r.
  - cbn [fold_left filter]. unfold count_step at 2. fold (occupied b a).
    destruct (occupied b a) eqn:Ha.
    + rewrite IH. cbn zeta. cbn [length rev].
      destruct (rev (filter (occupied b) l)) as [|i r]; cbn [app];
        f_equal; try f_equal; lia.
    + apply IH.
Qed.

Lemma filter_none {A : Type} (P : A -> bool) (l : list A) :
  (forall x, In x l -> P x = false) -> filter P l = [].
Proof.
  induction l as [|a l IH]; intros H; cbn; [reflexivity|].
  rewrite (H a) by now left. apply IH. intros x Hx. apply H. now right.
Qed.

Lemma filter_seq_single (P : nat -> bool) (n len : nat) :
  n < len -> P n = true ->
  (forall j, j < len -> j <> n -> P j = false) ->
  filter P (seq 0 len) = [n].
Proof.
  intros Hn Pn Hj.
  replace len with (n + S (len - S n)) by lia.
  rewrite seq_app, filter_app. cbn [seq filter Nat.add]. rewrite Pn.
  rewrite !filter_none; [reflexivity| |].
  - intros x Hx. apply in_seq in Hx. apply Hj; lia.
  - intros x Hx. apply in_seq in Hx. apply Hj; lia.
Qed.

Lemma occupied_iff (b : branch) (c : byte) :
  occupied b (Byte.to_nat c) = true <-> 0 < length (branch_Path b c).
Proof.
  unfold occupied. rewrite byte_of_int_to_nat. apply Nat.ltb_lt.
Qed.

Lemma empty_iff (s : list byte) : ~ 0 < length s <-> s = [].
Proof.
  destruct s; cbn; split; intros H; try reflexivity; try discriminate; lia.
Qed.

(** The loop finds the only non-empty slot. *)
Lemma count_only_slot (b : branch) (c : byte) :
  only_slot b c ->
  for_range RADIX (count_step b) (0, [], []) = (1, [c], branch_Path b c).
Proof.
  intros [Hc Hother]. unfold for_range. rewrite count_fold. cbn zeta.
  pose proof (Byte.to_nat_bounded c) as Hb.
  rewrite (filter_seq_single (occupied b) (Byte.to_nat c) RADIX).
  - cbn [rev app length Nat.add]. now rewrite byte_of_int_to_nat.
  - unfold RADIX. lia.
  - now apply occupied_iff.
  - intros j Hj Hne. unfold occupied. rewrite Hother; [reflexivity|].
    intros E. apply Hne. rewrite <- E. symmetry. now apply to_nat_byte_of_int.
Qed.

Lemma to_nat_in_range (j : byte) : In (Byte.to_nat j) (seq 0 RADIX).
Proof.
  pose proof (Byte.to_nat_bounded j) as Hb.
  apply in_seq. unfold RADIX. lia.
Qed.

Lemma count_one (b : branch) (l : list nat) (key value : list byte) :
  fold_left (count_step b) l (0, [], []) = (1, key, value) ->
  exists i, filter (occupied b) l = [i].
Proof.
  rewrite count_fold. cbn zeta. intros E.
  injection E as Hlen _ _. cbn [Nat.add] in Hlen.
  destruct (filter (occupied b) l) as [|i [|i' r]];
    [discriminate Hlen| |discriminate Hlen].
  exists i. reflexivity.
Qed.

(** When the loop counts one slot, that slot is the only non-empty one. *)
Lemma count_one_only_slot (b : branch) (key value : list byte) :
  for_range RADIX (count_step b) (0, [], []) = (1, key, value) ->
  exists c, only_slot b c.
Proof.
  unfold for_range. intros E. apply count_one in E as [i F].
  assert (Hi : In i (filter (occupied b) (seq 0 RADIX))).
  { rewrite F. left. reflexivity. }
  apply filter_In in Hi as [Hin Hocc].
  exists (byte_of_int i). split.
  - unfold occupied in Hocc. apply Nat.ltb_lt in Hocc. exact Hocc.
  - intros j Hj. apply empty_iff. intros Hpos.
    apply occupied_iff in Hpos.
    assert (Hin' : In (Byte.to_nat j) (filter (occupied b) (seq 0 RADIX))).
    { apply filter_In. split; [apply to_nat_in_range|assumption]. }
    rewrite F in Hin'. destruct Hin' as [E | []].
    apply Hj. rewrite E. rewrite byte_of_int_to_nat. reflexivity.
Qed.

Lemma branch_collapse_one (b : branch) (k : list byte) (v : slice)
      (idx c : byte) :
  only_slot (collapse_branch b v idx) c ->
  branch_collapse b k v idx true =
  (collapse_branch b v idx,
   ([c] ++ collapse_key k v, Some (branch_Path (collapse_branch b v idx) c), true)).
Proof.
  intros H. unfold branch_collapse.
  destruct v as [h|]; cbv beta iota zeta delta [negb collapse_branch collapse_key] in *;
    rewrite (count_only_slot _ c H); reflexivity.
Qed.

Lemma branch_collapse_many (b : branch) (k : list byte) (v : slice)
      (idx : byte) :
  (forall c, ~ only_slot (collapse_branch b v idx) c) ->
  branch_collapse b k v idx true =
  (collapse_branch b v idx, (collapse_key k v, v, false)).
Proof.
  intros H. unfold branch_collapse.
  destruct v as [h|]; cbv beta iota zeta delta [negb collapse_branch collapse_key] in *.
  - destruct (for_range RADIX (count_step b) (0, [], [])) as [[nb key] value] eqn:E.
    destruct (Nat.eqb_spec nb 1) as [->|]; [|reflexivity].
    apply count_one_only_slot in E as [c Hc]. now destruct (H c).
  - destruct (for_range RADIX (count_step (branch_trim b idx)) (0, [], []))
      as [[nb key] value] eqn:E.
    destruct (Nat.eqb_spec nb 1) as [->|]; [|reflexivity].
    apply count_one_only_slot in E as [c Hc]. now destruct (H c).
Qed.

Lemma two_children_trimmed : only_slot (branch_trim two_children x01) x02.
Proof.
  split.
  - cbn. lia.
  - intros j Hj. apply eqb_neq in Hj.
    unfold two_children, branch_trim, set_Path. cbn [branch_Path].
    rewrite Hj. now destruct (Byte.eqb j x01).
Qed.

Lemma two_children_two (c : byte) : ~ only_slot two_children c.
Proof.
  intros [_ H]. destruct (Byte.byte_eq_dec c x01) as [->|Hc].
  - specialize (H x02). discriminate H. discriminate.
  - specialize (H x01 (fun E => Hc (eq_sym E))). discriminate H.
Qed.

(** C2, counterexample.  Deleting the child at slot 1 ([v == nil]) of a
    branch with children at 1 and 2, with [k = [5]]: the code hands up the
    key [[2]], not [[2; 5]], since it sets [k] to nil when it trims.  And
    with a new child at slot 3 ([v] not nil) of the same branch, which does
    not collapse, slot 3 is still empty afterwards: no hash is written. *)
Lemma collapse_as_specified_fails :
  ~ collapse_as_specified two_children [x05] None x01 true /\
  ~ collapse_as_specified two_children [x05] (Some [x09]) x03 true.
Proof.
  split.
  - intros [_ H]. destruct (H eq_refl) as [H1 _].
    specialize (H1 x02 two_children_trimmed).
    rewrite (branch_collapse_one two_children [x05] None x01 x02
               two_children_trimmed) in H1.
    cbn in H1. discriminate H1.
  - intros [_ H]. destruct (H eq_refl) as [_ H2].
    destruct (H2 two_children_two) as [_ Hlen].
    rewrite (branch_collapse_many two_children [x05] (Some [x09]) x03
               two_children_two) in Hlen.
    cbn in Hlen. discriminate Hlen.
Qed.

(** When the child is not deleted and the branch keeps two children, the
    receiver is left as it was: the slot at [index] is not written. *)
Lemma collapse_writes_no_slot :
  branch_collapse two_children [x05] (Some [x09]) x03 true =
  (two_children, ([x05], Some [x09], false)) /\
  branch_Path two_children x03 = [].
Proof. split; vm_compute; reflexivity. Qed.

(** C2, amended.  With [childCollapsed] false, [collapse] returns
    [(k, v, false)] and leaves the branch alone.  Otherwise, with
    [v == nil] it trims the slot at [index] and sets [k] to nil; then, if
    exactly one non-empty slot [c] with value [w] remains it returns
    [([c] ++ k, w, true)], else [(k, v, false)]; no slot is written in
    either case ([ascend] does that). *)
Theorem branch_collapse_amended (b : branch) (k : list byte) (v : slice)
        (idx : byte) (childClps : bool) :
  let b' := collapse_branch b v idx in
  let k' := collapse_key k v in
  (childClps = false ->
   branch_collapse b k v idx childClps = (b, (k, v, false))) /\
  (childClps = true ->
   (forall c, only_slot b' c ->
      branch_collapse b k v idx childClps =
      (b', ([c] ++ k', Some (branch_Path b' c), true))) /\
   ((forall c, ~ only_slot b' c) ->
      branch_collapse b k v idx childClps = (b', (k', v, false)))) /\
  (v = None -> branch_Path b' idx = [] /\ k' = [] /\
               forall j, j <> idx -> branch_Path b' j = branch_Path b j) /\
  (v <> None -> b' = b /\ k' = k).
Proof.
  cbv zeta. repeat split.
  - intros ->. reflexivity.
  - subst childClps. now apply branch_collapse_one.
  - subst childClps. now apply branch_collapse_many.
  - subst v. apply set_Path_same.
  - subst v. reflexivity.
  - subst v. intros j Hj. now apply set_Path_other.
  - destruct v; [reflexivity|congruence].
  - destruct v; [reflexivity|congruence].
Qed.

(** ** The comparison loops of [leaf] *)

Lemma match_loop_diverge (m : nat) :
  forall path k n,
    diverge_at path k m -> match_loop path k n = Returns (n + m).
Proof.
  induction m as [|m IH]; intros path k n (Hp & Hk & Hpre & Hne);
    destruct path as [|p path]; destruct k as [|c k];
    cbn [length] in Hp, Hk; try lia; cbn [match_loop].
  - unfold byte_at in Hne. cbn in Hne. apply eqb_neq in Hne. rewrite Hne.
    now rewrite Nat.add_0_r.
  - cbn [firstn] in Hpre. injection Hpre as -> Hpre. rewrite eqb_refl.
    rewrite IH.
    + f_equal. lia.
    + repeat split; try lia; assumption.
Qed.

Lemma match_loop_returns (path : list byte) :
  forall k n r,
    match_loop path k n = Returns r ->
    exists m, r = n + m /\ diverge_at path k m.
Proof.
  induction path as [|p path IH]; intros k n r H; [discriminate H|].
  destruct k as [|c k]; [discriminate H|]. cbn [match_loop] in H.
  destruct (Byte.eqb p c) eqn:E.
  - apply eqb_eq in E as ->. apply IH in H as (m & -> & Hp & Hk & Hpre & Hne).
    exists (S m). repeat split; cbn [length firstn]; try lia.
    + now rewrite Hpre.
    + exact Hne.
  - injection H as <-. exists 0. apply eqb_neq in E.
    repeat split; cbn [length]; try lia. exact E.
Qed.

Lemma match_loop_prefix (path : list byte) :
  forall t n, match_loop path (path ++ t) n = Panics.
Proof.
  induction path as [|p path IH]; intros t n; [reflexivity|].
  cbn [app match_loop]. rewrite eqb_refl. apply IH.
Qed.

Lemma match_loop_short_key (k : list byte) :
  forall t n, match_loop (k ++ t) k n = Panics.
Proof.
  induction k as [|c k IH]; intros t n.
  - now destruct t.
  - cbn [app match_loop]. rewrite eqb_refl. apply IH.
Qed.

Lemma skipn_mid {A : Type} (a b : list A) (x : A) :
  skipn (length a) (a ++ x :: b) = x :: b.
Proof. induction a; cbn; auto. Qed.

Lemma skipn_S_mid {A : Type} (a b : list A) (x : A) :
  skipn (S (length a)) (a ++ x :: b) = b.
Proof. induction a; cbn; auto. Qed.


(** Case analysis along the calls and tests of a monadic body. *)
Ltac run_body H :=
  repeat match type of H with
         | bind ?c _ = _ => destruct c eqn:?; cbn [bind] in H
         | (if ?c then _ else _) = _ => destruct c eqn:?
         | match ?x with _ => _ end = _ => destruct x eqn:?
         end.

Lemma leaf_split_no_error (l : leaf) (m : nat) (k v : list byte)
      (stack stack' : list patricia) (err : option error) :
  leaf_split l m k v stack = Returns (stack', err) -> err = None.
Proof.
  unfold leaf_split. intros H. run_body H; congruence.
Qed.

(** ** C10: the unbounded loop of [leaf.insert] *)

(** C10. The loop of [leaf.insert] (and of [leaf.increase]) does not bound
    [match] by [len(l.Path)]: when the whole [Path] is a prefix of the key
    the call panics on reading [l.Path] out of range; and whenever the loop
    ends, [match < len(l.Path)], so that the guard [match == len(l.Path)]
    after it never holds and its error is never returned. *)
Theorem insert_loop_reads_past_path (l : leaf) (k v : list byte)
        (stack : list patricia) :
  (forall t, k = leaf_Path l ++ t ->
             match_loop (leaf_Path l) k 0 = Panics /\
             index (leaf_Path l) (length (leaf_Path l)) = Panics /\
             leaf_insert l k v stack = Panics /\
             leaf_increase l k = Panics) /\
  (forall m, match_loop (leaf_Path l) k 0 = Returns m ->
             m < length (leaf_Path l) /\
             (m =? length (leaf_Path l)) = false) /\
  (forall stack' e, leaf_insert l k v stack = Returns (stack', Some e) ->
                    e <> total_match_error).
Proof.
  assert (Hret : forall m, match_loop (leaf_Path l) k 0 = Returns m ->
                           m < length (leaf_Path l) /\
                           (m =? length (leaf_Path l)) = false).
  { intros m H. apply match_loop_returns in H as (m' & -> & Hp & _).
    cbn [Nat.add]. split; [exact Hp|]. apply Nat.eqb_neq. lia. }
  split; [|split].
  - intros t ->. unfold leaf_insert, leaf_increase.
    rewrite match_loop_prefix. cbn [bind]. repeat split.
    apply index_out. lia.
  - exact Hret.
  - intros stack' e H Heq. subst e. unfold leaf_insert in H.
    destruct (match_loop (leaf_Path l) k 0) as [m|] eqn:Em;
      cbn [bind] in H; [|discriminate H].
    destruct (Hret m eq_refl) as [_ Hguard]. rewrite Hguard in H.
    destruct (Byte.eqb (leaf_Ext l) x01).
    + destruct (length (leaf_Path l) =? 1); [discriminate H|].
      destruct (slice_from k m) as [km|]; cbn [bind] in H; [|discriminate H].
      destruct (leaf_split l m km v stack) as [[s err]|] eqn:Es;
        cbn [bind] in H; [|discriminate H].
      apply leaf_split_no_error in Es. subst err.
      run_body H; discriminate H.
    + run_body H; discriminate H.
Qed.

(** ** C6: [leaf.descend] *)

(** The loop of [descend] is the source's loop: at position [m] it reads
    [l.Path[m]] and [key[m]], panics when either is out of range, returns
    the value when the bytes are equal and [m + 1] is the length of the
    path, goes on when they are equal and the path is longer, and reports
    the divergence at [m] otherwise. *)
Lemma descend_loop_step (value path key : list byte) (m : nat) :
  descend_loop value (skipn m path) (skipn m key) m =
  (p <- index path m ;;
   c <- index key m ;;
   if Byte.eqb p c then
     if S m =? length path then Returns (value, S m, None)
     else descend_loop value (skipn (S m) path) (skipn (S m) key) (S m)
   else Returns ([], m, Some ErrPathDiverge)).
Proof.
  unfold index.
  destruct (nth_error path m) as [p|] eqn:Ep.
  - apply nth_error_split in Ep as (p1 & p2 & -> & <-).
    rewrite skipn_mid, skipn_S_mid. cbn [bind].
    destruct (nth_error key (length p1)) as [c|] eqn:Ek.
    + apply nth_error_split in Ek as (k1 & k2 & -> & Hlen).
      rewrite <- Hlen. rewrite skipn_mid, skipn_S_mid.
      cbn [bind descend_loop]. rewrite length_app. cbn [length].
      destruct (Byte.eqb p c); [|reflexivity].
      destruct p2 as [|p' p2]; cbn [length];
        match goal with
        | |- context [?a =? ?b] => destruct (Nat.eqb_spec a b)
        end; try reflexivity; lia.
    + apply nth_error_None in Ek. rewrite (skipn_all2 key) by exact Ek.
      reflexivity.
  - apply nth_error_None in Ep. rewrite (skipn_all2 path) by exact Ep.
    reflexivity.
Qed.

(** A path that is not empty and is a prefix of the key is matched in
    full: the value comes back with the length of the path. *)
Lemma descend_loop_arrives (value path : list byte) :
  path <> [] ->
  forall t n,
    descend_loop value path (path ++ t) n = Returns (value, n + length path, None).
Proof.
  induction path as [|p path IH]; intros Hne t n; [congruence|].
  cbn [app descend_loop length]. rewrite eqb_refl.
  destruct path as [|p' path].
  - f_equal. f_equal. f_equal. cbn. lia.
  - rewrite IH by discriminate. f_equal. f_equal. f_equal. cbn [length]. lia.
Qed.

Lemma descend_loop_diverges (value : list byte) (m : nat) :
  forall path key n,
    diverge_at path key m ->
    descend_loop value path key n = Returns ([], n + m, Some ErrPathDiverge).
Proof.
  induction m as [|m IH]; intros path key n (Hp & Hk & Hpre & Hne);
    destruct path as [|p path]; destruct key as [|c key];
    cbn [length] in Hp, Hk; try lia; cbn [descend_loop].
  - unfold byte_at in Hne. cbn in Hne. apply eqb_neq in Hne. rewrite Hne.
    now rewrite Nat.add_0_r.
  - cbn [firstn] in Hpre. injection Hpre as -> Hpre. rewrite eqb_refl.
    destruct path as [|p' path]; [cbn [length] in Hp; lia|].
    rewrite IH.
    + f_equal. f_equal. f_equal. lia.
    + repeat split; try lia; assumption.
Qed.

(** Outside of the two panics, [descend] does what the spec says. *)
Lemma leaf_descend_in_range (l : leaf) (key : list byte) :
  (leaf_Path l <> [] ->
   forall t, key = leaf_Path l ++ t ->
     leaf_descend l key = Returns (leaf_Value l, length (leaf_Path l), None)) /\
  (forall m, diverge_at (leaf_Path l) key m ->
     leaf_descend l key = Returns ([], m, Some ErrPathDiverge)).
Proof.
  unfold leaf_descend. split.
  - intros Hne t ->. now rewrite descend_loop_arrives.
  - intros m H. now rewrite (descend_loop_diverges _ m).
Qed.

(** C6, at the failing input.  A leaf whose path is empty (the leaves that
    [insert] makes for two keys that differ in their last byte): the longest
    common prefix with any key is 0, the length of the path, and [descend]
    panics on reading [l.Path[0]] instead of returning the value. *)
Theorem leaf_descend_empty_path_panics (ext : byte) (value key : list byte) :
  let l := {| leaf_Ext := ext; leaf_Path := []; leaf_Value := value |} in
  index (leaf_Path l) 0 = Panics /\
  leaf_descend l key = Panics /\
  leaf_descend {| leaf_Ext := x00; leaf_Path := []; leaf_Value := ["v"%byte] |}
               [] = Panics.
Proof. cbv zeta. repeat split. Qed.

(** A key that ends inside the path panics as well. *)
Lemma leaf_descend_short_key_panics (l : leaf) (key t : list byte) :
  t <> [] -> leaf_Path l = key ++ t -> leaf_descend l key = Panics.
Proof.
  unfold leaf_descend. intros Ht ->. generalize 0 as n.
  induction key as [|c key IH]; intros n.
  - now destruct t.
  - cbn [app descend_loop]. rewrite eqb_refl.
    destruct (key ++ t) eqn:E; [|apply IH].
    apply app_eq_nil in E as [_ ->]. congruence.
Qed.

(** ** C7: [branch.descend] *)

(** C7, counterexample.  On the empty branch and the key [[0]] the error
    is [ErrInvalidPatricia] (wrapped), not [ErrPathDiverge]. *)
Lemma branch_descend_as_specified_fails :
  ~ branch_descend_as_specified branch_zero [x00].
Proof.
  intros H. destruct (H x00 [] eq_refl) as [_ H2].
  destruct (H2 eq_refl) as (e & He & Hc).
  cbn in He. injection He as <-. discriminate Hc.
Qed.

(** C7, amended.  On a non-empty key, [descend] returns the hash stored at
    slot [key[0]] with 1 byte consumed when that slot is non-empty; when it
    is empty it returns no next reference, 0 bytes consumed and the error
    [ErrInvalidPatricia] (wrapped), which is not [ErrPathDiverge]. *)
Theorem branch_descend_amended (b : branch) (k0 : byte) (rest : list byte) :
  (0 < length (branch_Path b k0) ->
   branch_descend b (k0 :: rest) = Returns (branch_Path b k0, 1, None)) /\
  (branch_Path b k0 = [] ->
   exists e, branch_descend b (k0 :: rest) = Returns ([], 0, Some e) /\
             Cause e = ErrInvalidPatricia /\ Cause e <> ErrPathDiverge).
Proof.
  unfold branch_descend. cbn [index nth_error bind]. split.
  - intros H. apply Nat.ltb_lt in H. now rewrite H.
  - intros ->. cbn. eexists. repeat split. discriminate.
Qed.

(** ** C5 and C3: [insert] on a leaf *)

Lemma diverge_at_bounds (path k : list byte) (m : nat) :
  diverge_at path k m ->
  (m =? length path) = false /\
  index path m = Returns (byte_at path m) /\
  index k m = Returns (byte_at k m) /\
  slice_from path m = Returns (skipn m path) /\
  slice_from k m = Returns (skipn m k) /\
  slice_from path (m + 1) = Returns (skipn (m + 1) path) /\
  slice_from k (m + 1) = Returns (skipn (m + 1) k) /\
  slice_to path m = Returns (firstn m path) /\
  slice_to k m = Returns (firstn m k).
Proof.
  intros (Hp & Hk & _ & _). repeat split.
  - apply Nat.eqb_neq. lia.
  - now apply index_nth.
  - now apply index_nth.
  - apply slice_from_in. lia.
  - apply slice_from_in. lia.
  - apply slice_from_in. lia.
  - apply slice_from_in. lia.
  - apply slice_to_in. lia.
  - apply slice_to_in. lia.
Qed.

Lemma leaf_insert_leaf (l : leaf) (k v : list byte) (stack : list patricia)
      (m : nat) :
  Byte.eqb (leaf_Ext l) x01 = false ->
  diverge_at (leaf_Path l) k m ->
  leaf_insert l k v stack =
  Returns ((if 0 <? m then [Leaf (leaf_E l k v m)] else []) ++
           stack ++
           [Branch (leaf_B l k v m); Leaf (leaf_L1 l m); Leaf (leaf_L2 k v m)],
           None).
Proof.
  intros Hext Hdiv. unfold leaf_insert.
  rewrite (match_loop_diverge m _ _ 0 Hdiv). cbn [Nat.add bind].
  destruct (diverge_at_bounds _ _ _ Hdiv)
    as (Hg & Hip & Hik & _ & _ & Hsp & Hsk & _ & Hstk).
  rewrite Hg, Hext, Hsp. cbn [bind]. rewrite Hsk. cbn [bind].
  rewrite Hip. cbn [bind]. rewrite Hik. cbn [bind].
  unfold PushBack, PushFront. rewrite <- !app_assoc. cbn [app].
  destruct (0 <? m).
  - rewrite Hstk. reflexivity.
  - reflexivity.
Qed.

(** C5. On a leaf ([Ext = 0]) whose path and the key tail [k] share [m]
    bytes and then differ, [insert] makes the leaves
    [L1 = (node.Path[m+1:], node.Value)] and [L2 = (k[m+1:], v)], a branch
    [B] whose slot [node.Path[m]] is the hash of [L1] and whose slot [k[m]]
    is the hash of [L2] (all other slots empty), and for [m > 0] an
    extension [E = (k[:m], hash(B))] at the front of the stack.  [B], [L1]
    and [L2] are pushed at the back in this order: on an empty stack the
    result is [[E?], B, L1, L2]. *)
Theorem leaf_insert_splits_leaf (l : leaf) (k v : list byte)
        (stack : list patricia) (m : nat) :
  leaf_Ext l = x00 ->
  diverge_at (leaf_Path l) k m ->
  exists (L1 L2 : leaf) (B : branch) (E : list patricia),
    L1 = {| leaf_Ext := x00; leaf_Path := skipn (m + 1) (leaf_Path l);
            leaf_Value := leaf_Value l |} /\
    L2 = {| leaf_Ext := x00; leaf_Path := skipn (m + 1) k; leaf_Value := v |} /\
    branch_Path B (byte_at (leaf_Path l) m) = leaf_hash L1 /\
    branch_Path B (byte_at k m) = leaf_hash L2 /\
    (forall j, j <> byte_at (leaf_Path l) m -> j <> byte_at k m ->
               branch_Path B j = []) /\
    branch_Value B = [] /\
    (m = 0 -> E = []) /\
    (0 < m -> E = [Leaf {| leaf_Ext := x01; leaf_Path := firstn m k;
                           leaf_Value := branch_hash B |}]) /\
    leaf_insert l k v stack =
      Returns (E ++ stack ++ [Branch B; Leaf L1; Leaf L2], None) /\
    (stack = [] ->
     leaf_insert l k v stack = Returns (E ++ [Branch B; Leaf L1; Leaf L2], None)).
Proof.
  intros Hext Hdiv.
  assert (Hext' : Byte.eqb (leaf_Ext l) x01 = false) by (now rewrite Hext).
  pose proof (leaf_insert_leaf l k v stack m Hext' Hdiv) as Hins.
  destruct Hdiv as (_ & _ & _ & Hne).
  exists (leaf_L1 l m), (leaf_L2 k v m), (leaf_B l k v m),
         (if 0 <? m then [Leaf (leaf_E l k v m)] else []).
  split; [reflexivity|]. split; [reflexivity|].
  split; [|split; [|split; [|split; [|split; [|split; [|split]]]]]].
  - unfold leaf_B. rewrite set_Path_other by exact Hne. apply set_Path_same.
  - unfold leaf_B. apply set_Path_same.
  - intros j H1 H2. unfold leaf_B. now rewrite !set_Path_other.
  - reflexivity.
  - intros ->. reflexivity.
  - intros H. apply Nat.ltb_lt in H. now rewrite H.
  - exact Hins.
  - intros ->. exact Hins.
Qed.

Lemma diverge_12_13 : diverge_at (leaf_Path leaf_12) [x01; x03] 1.
Proof. repeat split; cbn; try lia. discriminate. Qed.

Lemma leaf_insert_splits_leaf_witness :
  exists (L1 L2 : leaf) (B : branch) (E : list patricia),
    L1 = {| leaf_Ext := x00; leaf_Path := []; leaf_Value := ["a"%byte] |} /\
    L2 = {| leaf_Ext := x00; leaf_Path := []; leaf_Value := ["b"%byte] |} /\
    branch_Path B x02 = leaf_hash L1 /\
    branch_Path B x03 = leaf_hash L2 /\
    (forall j, j <> x02 -> j <> x03 -> branch_Path B j = []) /\
    branch_Value B = [] /\
    (1 = 0 -> E = []) /\
    (0 < 1 -> E = [Leaf {| leaf_Ext := x01; leaf_Path := [x01];
                           leaf_Value := branch_hash B |}]) /\
    leaf_insert leaf_12 [x01; x03] ["b"%byte] [] =
      Returns (E ++ [] ++ [Branch B; Leaf L1; Leaf L2], None) /\
    (@nil patricia = [] ->
     leaf_insert leaf_12 [x01; x03] ["b"%byte] [] =
       Returns (E ++ [Branch B; Leaf L1; Leaf L2], None)).
Proof.
  exact (leaf_insert_splits_leaf leaf_12 [x01; x03] ["b"%byte] [] 1
           eq_refl diverge_12_13).
Defined.

(** With one byte in common, the extension that [insert] puts at the front
    has a path of length 1. *)
Lemma leaf_insert_extension_length (l : leaf) (k v : list byte)
      (stack : list patricia) (m : nat) :
  leaf_Ext l = x00 -> diverge_at (leaf_Path l) k m -> 0 < m ->
  exists e rest,
    leaf_insert l k v stack = Returns (Leaf e :: rest, None) /\
    leaf_Ext e = x01 /\ length (leaf_Path e) = m.
Proof.
  intros Hext Hdiv Hm.
  assert (Hext' : Byte.eqb (leaf_Ext l) x01 = false) by (now rewrite Hext).
  rewrite (leaf_insert_leaf l k v stack m Hext' Hdiv).
  apply Nat.ltb_lt in Hm as Hm'. rewrite Hm'.
  eexists. eexists. split; [reflexivity|]. split; [reflexivity|].
  cbn [leaf_E leaf_Path]. rewrite length_firstn.
  destruct Hdiv as (_ & Hk & _). lia.
Qed.

(** C3, at the failing input.  Inserting the key tail [[1; 3]] at the leaf
    [([1; 2], "a")]: one byte in common, and the node pushed at the front
    of the stack is an extension ([Ext = 1]) whose path [[1]] has length 1,
    while the extension path of [insert] and [split] make a branch in that
    case.  [insert] itself refuses such a node: a later insert at it, with a
    key that leaves its path at once, returns the error
    [ext should not have path length = 1]. *)
Theorem leaf_insert_pushes_short_extension :
  exists e rest,
    leaf_insert leaf_12 [x01; x03] ["b"%byte] [] = Returns (Leaf e :: rest, None) /\
    leaf_Ext e = x01 /\
    leaf_Path e = [x01] /\
    length (leaf_Path e) = 1 /\
    ~ 2 <= length (leaf_Path e) /\
    leaf_insert e [x05; x03] ["c"%byte] [] =
      Returns ([], Some (Wrap ErrInvalidPatricia
                           "ext should not have path length = 1"%string)).
Proof.
  pose proof (leaf_insert_leaf leaf_12 [x01; x03] ["b"%byte] [] 1
                eq_refl diverge_12_13) as H.
  cbn [Nat.ltb Nat.leb app] in H. rewrite H.
  eexists. eexists. split; [reflexivity|].
  cbn [leaf_E leaf_Ext leaf_Path firstn length].
  split; [reflexivity|]. split; [reflexivity|]. split; [reflexivity|].
  split; [lia|]. reflexivity.
Qed.

(** ** C4: [insert] on an extension *)

Lemma skipn_skipn_1 {A : Type} (s : list A) (m : nat) :
  skipn 1 (skipn m s) = skipn (m + 1) s.
Proof. now rewrite skipn_skipn, Nat.add_comm. Qed.

Lemma nth_skipn_0 (s : list byte) (m i : nat) :
  byte_at (skipn m s) i = byte_at s (m + i).
Proof.
  unfold byte_at. revert s. induction m as [|m IH]; intros s; [reflexivity|].
  destruct s as [|x s]; [now destruct i|]. cbn [skipn Nat.add nth]. apply IH.
Qed.

Lemma leaf_split_exact (l : leaf) (k v : list byte) (stack : list patricia)
      (m : nat) :
  diverge_at (leaf_Path l) k m ->
  leaf_split l m (skipn m k) v stack =
  Returns (split_stack l k v m stack, None).
Proof.
  intros Hdiv.
  destruct (diverge_at_bounds _ _ _ Hdiv) as (_ & _ & _ & Hsp & _).
  destruct Hdiv as (Hp & Hk & _ & _).
  unfold leaf_split. rewrite Hsp. cbn [bind].
  rewrite slice_from_in by (rewrite length_skipn; lia). cbn [bind].
  rewrite (index_nth _ 0 x00) by (rewrite length_skipn; lia). cbn [bind].
  fold (byte_at (skipn m k) 0). rewrite nth_skipn_0, Nat.add_0_r.
  rewrite skipn_skipn_1. fold (split_leaf k v m).
  unfold split_stack, split_branch, split_link, split_helper.
  rewrite length_skipn.
  destruct (length (leaf_Path l) - m) as [|[|[|n]]] eqn:Hlen; [lia| | |].
  - rewrite (index_nth _ 0 x00) by (rewrite length_skipn; lia). cbn [bind].
    fold (byte_at (skipn m (leaf_Path l)) 0).
    rewrite nth_skipn_0, Nat.add_0_r.
    unfold PushBack, helper_list. now rewrite <- !app_assoc.
  - rewrite (index_nth _ 1 x00) by (rewrite length_skipn; lia). cbn [bind].
    rewrite (index_nth _ 0 x00) by (rewrite length_skipn; lia). cbn [bind].
    fold (byte_at (skipn m (leaf_Path l)) 0).
    fold (byte_at (skipn m (leaf_Path l)) 1).
    rewrite !nth_skipn_0, Nat.add_0_r.
    unfold PushBack, helper_list. now rewrite <- !app_assoc.
  - rewrite slice_from_in by (rewrite length_skipn; lia). cbn [bind].
    rewrite (index_nth _ 0 x00) by (rewrite length_skipn; lia). cbn [bind].
    fold (byte_at (skipn m (leaf_Path l)) 0).
    rewrite nth_skipn_0, Nat.add_0_r, skipn_skipn_1.
    unfold PushBack, helper_list. now rewrite <- !app_assoc.
Qed.

Lemma leaf_insert_extension (l : leaf) (k v : list byte)
      (stack : list patricia) (m : nat) :
  leaf_Ext l = x01 ->
  length (leaf_Path l) <> 1 ->
  diverge_at (leaf_Path l) k m ->
  leaf_insert l k v stack =
  Returns (insert_top l m
             (patricia_hash (front_after_split (split_branch l k v m) stack))
           ++ split_stack l k v m stack, None).
Proof.
  intros Hext Hlen Hdiv. unfold leaf_insert.
  rewrite (match_loop_diverge m _ _ 0 Hdiv). cbn [Nat.add bind].
  destruct (diverge_at_bounds _ _ _ Hdiv)
    as (Hg & Hip & _ & _ & Hsk & _ & _ & Hstp & _).
  rewrite Hg, Hext. cbn [Byte.eqb]. rewrite eqb_refl.
  apply Nat.eqb_neq in Hlen. rewrite Hlen, Hsk. cbn [bind].
  rewrite (leaf_split_exact l k v stack m Hdiv). cbn [bind].
  assert (HF : Front (split_stack l k v m stack) =
               Returns (front_after_split (split_branch l k v m) stack)).
  { unfold split_stack. now destruct stack. }
  rewrite HF. cbn [bind]. unfold insert_top, PushFront.
  destruct (m =? 1) eqn:E1.
  - apply Nat.eqb_eq in E1. subst m.
    destruct Hdiv as (Hp & _).
    rewrite (index_nth _ 0 x00) by lia. reflexivity.
  - destruct (1 <? m); [|reflexivity]. rewrite Hstp. reflexivity.
Qed.






(** The extensions that [insert] makes out of an extension are longer
    than one byte: the case that the leaf path of [insert] misses (C3) is
    handled here, by a branch for [m = 1] and for [len(divPath) = 2]. *)
Theorem extension_insert_extensions_long (l : leaf) (k v : list byte)
        (stack : list patricia) (m : nat) :
  leaf_Ext l = x01 ->
  length (leaf_Path l) <> 1 ->
  diverge_at (leaf_Path l) k m ->
  exists top new,
    leaf_insert l k v stack = Returns (top ++ stack ++ new, None) /\
    forall e, In (Leaf e) (top ++ new) ->
              leaf_Ext e = x01 -> 2 <= length (leaf_Path e).
Proof.
  intros Hext Hlen Hdiv.
  pose proof (leaf_insert_extension l k v stack m Hext Hlen Hdiv) as Hins.
  destruct Hdiv as (Hp & _).
  eexists. exists ([Branch (split_branch l k v m)] ++
                   helper_list (split_helper l m) ++ [Leaf (split_leaf k v m)]).
  split; [exact Hins|].
  intros e Hin He. unfold insert_top, split_helper in Hin.
  rewrite !in_app_iff in Hin. destruct Hin as [Hin | [Hin | [Hin | Hin]]].
  - destruct (Nat.eqb_spec m 1).
    + destruct Hin as [Hin | []]. discriminate Hin.
    + destruct (Nat.ltb_spec 1 m); [|destruct Hin].
      destruct Hin as [Hin | []]. injection Hin as <-.
      cbn [leaf_Path]. rewrite length_firstn. lia.
  - destruct Hin as [Hin | []]. discriminate Hin.
  - destruct (length (leaf_Path l) - m) as [|[|[|n]]] eqn:E;
      cbn [helper_list] in Hin; try lia.
    + destruct Hin.
    + destruct Hin as [Hin | []]. discriminate Hin.
    + destruct Hin as [Hin | []]. injection Hin as <-.
      cbn [leaf_Path]. rewrite length_skipn. lia.
  - destruct Hin as [Hin | []]. injection Hin as <-.
    cbn [split_leaf leaf_Ext] in He. discriminate He.
Qed.

Lemma diverge_12345_129 :
  diverge_at (leaf_Path ext_12345) [x01; x02; x09; x09; x09; x09] 2.
Proof. repeat split; cbn; try lia. discriminate. Qed.

Lemma extension_insert_extensions_long_witness :
  exists top new,
    leaf_insert ext_12345 [x01; x02; x09; x09; x09; x09] ["b"%byte] [] =
      Returns (top ++ [] ++ new, None) /\
    forall e, In (Leaf e) (top ++ new) ->
              leaf_Ext e = x01 -> 2 <= length (leaf_Path e).
Proof.
  apply (extension_insert_extensions_long ext_12345
           [x01; x02; x09; x09; x09; x09] ["b"%byte] [] 2).
  - reflexivity.
  - cbn. lia.
  - exact diverge_12345_129.
Defined.

(** ** C8 and C9: [serialize] and [deserialize] *)

Lemma branch_of_to_gob (b : branch) :
  branch_equiv (branch_of_gob (branch_to_gob b)) b.
Proof.
  split; [|reflexivity]. intros c. apply branch_slots_nth.
Qed.



(** The reference codec meets the round-trip law. *)
Module RefGobLaws.

Import RefGob.

Lemma dec_esc (f : list byte) (rest : list byte) (fs : list (list byte)) :
  dec_fields rest = Some fs ->
  dec_fields (esc f ++ x02 :: rest) = Some (f :: fs).
Proof.
  intros H. induction f as [|c f IH].
  - cbn [esc flat_map app dec_fields Byte.eqb]. cbn. now rewrite H.
  - change (esc (c :: f) ++ x02 :: rest)
      with (x01 :: c :: (esc f ++ x02 :: rest)).
    cbn [dec_fields]. rewrite IH. reflexivity.
Qed.

Lemma dec_enc_fields (fs : list (list byte)) :
  dec_fields (enc_fields fs) = Some fs.
Proof.
  induction fs as [|f fs IH]; [reflexivity|].
  cbn [enc_fields]. now apply dec_esc.
Qed.

Lemma gob_leaf_round_trip : @GobRoundTrip leaf gob_leaf.
Proof.
  intros [e p v] stream H.
  assert (E : enc_fields [[e]; p; v] = stream)
    by exact (f_equal (fun x => match x with inr s => s | inl _ => stream end) H).
  rewrite <- E.
  cbv beta iota delta [Decode gob_leaf]. rewrite dec_enc_fields. reflexivity.
Qed.

Lemma gob_branch_round_trip : @GobRoundTrip branch_fields gob_branch.
Proof.
  intros [slots v] stream H.
  assert (E : enc_fields (slots ++ [v]) = stream)
    by exact (f_equal (fun x => match x with inr s => s | inl _ => stream end) H).
  rewrite <- E. clear E H.
  cbv beta iota delta [Decode gob_branch]. rewrite dec_enc_fields.
  destruct (slots ++ [v]) as [|f fs] eqn:E.
  - now destruct slots.
  - rewrite <- E. now rewrite removelast_last, last_last.
Qed.

End RefGobLaws.

Section Serialization.

Context {gob_leaf : Gob leaf} {gob_branch : Gob branch_fields}.

Lemma leaf_deserialize_cons (tag : byte) (rest : list byte) :
  leaf_deserialize (tag :: rest) = Returns (Decode rest).
Proof.
  unfold leaf_deserialize, slice_from. cbn [length Nat.leb skipn bind].
  now destruct (Decode rest).
Qed.

Lemma branch_deserialize_cons (tag : byte) (rest : list byte) :
  branch_deserialize (tag :: rest) =
  Returns match Decode rest with
          | inl err => inl err
          | inr f => inr (branch_of_gob f)
          end.
Proof.
  unfold branch_deserialize, slice_from. cbn [length Nat.leb skipn bind].
  now destruct (Decode rest).
Qed.

Lemma leaf_round_trip (l : leaf) (stream : list byte) :
  GobRoundTrip leaf ->
  leaf_serialize l = (stream, None) ->
  leaf_deserialize stream = Returns (inr l).
Proof.
  intros Hrt. unfold leaf_serialize.
  destruct (Encode l) as [err|s] eqn:E; intros H; [discriminate H|].
  injection H as <-. rewrite leaf_deserialize_cons. now rewrite (Hrt l s E).
Qed.

Lemma branch_round_trip (b : branch) (stream : list byte) :
  GobRoundTrip branch_fields ->
  branch_serialize b = (stream, None) ->
  exists b', branch_deserialize stream = Returns (inr b') /\ branch_equiv b' b.
Proof.
  intros Hrt. unfold branch_serialize.
  destruct (Encode (branch_to_gob b)) as [err|s] eqn:E; intros H;
    [discriminate H|].
  injection H as <-. rewrite branch_deserialize_cons, (Hrt _ s E).
  eexists. split; [reflexivity|]. apply branch_of_to_gob.
Qed.


(** As soon as gob decodes the bytes of some leaf, these bytes are
    accepted after any first byte. *)
Lemma deserialize_ignores_tag (l : leaf) (stream : list byte) :
  GobRoundTrip leaf -> Encode l = inr stream -> ~ deserialize_checks_tag.
Proof.
  intros Hrt E H.
  destruct (H x07 stream) as [[err Herr] _]; try discriminate.
  rewrite leaf_deserialize_cons, (Hrt l stream E) in Herr. discriminate Herr.
Qed.

(** C9, amended.  [deserialize] skips the first byte of its input without
    looking at it and decodes the rest: it undoes [serialize], it fails
    with gob's error whenever the bytes after the first do not decode, and
    its result is the same whatever the first byte is. *)
Theorem deserialize_amended :
  GobRoundTrip leaf ->
  GobRoundTrip branch_fields ->
  (forall l stream,
      leaf_serialize l = (stream, None) ->
      leaf_deserialize stream = Returns (inr l)) /\
  (forall b stream,
      branch_serialize b = (stream, None) ->
      exists b', branch_deserialize stream = Returns (inr b') /\
                 branch_equiv b' b) /\
  (forall (tag : byte) (rest : list byte) (err : error),
      (@Decode leaf _ rest = inl err ->
       leaf_deserialize (tag :: rest) = Returns (inl err)) /\
      (@Decode branch_fields _ rest = inl err ->
       branch_deserialize (tag :: rest) = Returns (inl err))) /\
  (forall (tag tag' : byte) (rest : list byte),
      leaf_deserialize (tag :: rest) = leaf_deserialize (tag' :: rest) /\
      branch_deserialize (tag :: rest) = branch_deserialize (tag' :: rest)).
Proof.
  intros Hl Hb. split; [|split; [|split]].
  - intros l stream. now apply leaf_round_trip.
  - intros b stream. now apply branch_round_trip.
  - intros tag rest err. split; intros E.
    + now rewrite leaf_deserialize_cons, E.
    + now rewrite branch_deserialize_cons, E.
  - intros tag tag' rest.
    now rewrite !leaf_deserialize_cons, !branch_deserialize_cons.
Qed.

End Serialization.


(** C9, counterexample.  The bytes of the leaf [([1; 2], "a")] after the
    first byte 7, which is no tag: [deserialize] returns the leaf. *)
Lemma deserialize_checks_tag_fails :
  ~ @deserialize_checks_tag RefGob.gob_leaf RefGob.gob_branch.
Proof.
  apply (@deserialize_ignores_tag RefGob.gob_leaf RefGob.gob_branch leaf_12
           (RefGob.enc_fields [[x00]; [x01; x02]; ["a"%byte]])).
  - exact RefGobLaws.gob_leaf_round_trip.
  - reflexivity.
Qed.

Example deserialize_unknown_tag :
  @leaf_deserialize RefGob.gob_leaf
    (x07 :: RefGob.enc_fields [[x00]; [x01; x02]; ["a"%byte]]) =
  Returns (inr leaf_12).
Proof. reflexivity. Qed.

(** C9, witness: the reference codec. *)
Lemma deserialize_amended_witness :
  (forall l stream,
      @leaf_serialize RefGob.gob_leaf l = (stream, None) ->
      @leaf_deserialize RefGob.gob_leaf stream = Returns (inr l)) /\
  (forall b stream,
      @branch_serialize RefGob.gob_branch b = (stream, None) ->
      exists b', @branch_deserialize RefGob.gob_branch stream = Returns (inr b') /\
                 branch_equiv b' b) /\
  (forall (tag : byte) (rest : list byte) (err : error),
      (@Decode leaf RefGob.gob_leaf rest = inl err ->
       @leaf_deserialize RefGob.gob_leaf (tag :: rest) = Returns (inl err)) /\
      (@Decode branch_fields RefGob.gob_branch rest = inl err ->
       @branch_deserialize RefGob.gob_branch (tag :: rest) =
       Returns (inl err))) /\
  (forall (tag tag' : byte) (rest : list byte),
      @leaf_deserialize RefGob.gob_leaf (tag :: rest) =
      @leaf_deserialize RefGob.gob_leaf (tag' :: rest) /\
      @branch_deserialize RefGob.gob_branch (tag :: rest) =
      @branch_deserialize RefGob.gob_branch (tag' :: rest)).
Proof.
  exact (@deserialize_amended RefGob.gob_leaf RefGob.gob_branch
           RefGobLaws.gob_leaf_round_trip RefGobLaws.gob_branch_round_trip).
Defined.

(** * Further properties of the nodes *)

(** ** Hashes fill a slot *)

Lemma patricia_hash_length (n : patricia) :
  length (patricia_hash n) = HashSize.
Proof.
  destruct n; unfold patricia_hash, branch_hash, leaf_hash;
    apply Sum256_length.
Qed.

Lemma leaf_hash_occupied (l : leaf) : (0 <? length (leaf_hash l)) = true.
Proof.
  change (leaf_hash l) with (patricia_hash (Leaf l)).
  now rewrite patricia_hash_length.
Qed.

Lemma branch_hash_occupied (b : branch) : (0 <? length (branch_hash b)) = true.
Proof.
  change (branch_hash b) with (patricia_hash (Branch b)).
  now rewrite patricia_hash_length.
Qed.

Lemma make_copy_exact (n : nat) (src : list byte) :
  length src = n -> make_copy n src = src.
Proof.
  intros <-. unfold make_copy.
  now rewrite firstn_all, Nat.sub_diag, app_nil_r.
Qed.


Lemma branch_descend_slot (b : branch) (c : byte) (rest : list byte) :
  branch_Path b c <> [] ->
  branch_descend b (c :: rest) = Returns (branch_Path b c, 1, None).
Proof.
  intros H. unfold branch_descend. cbn [index nth_error bind].
  destruct (branch_Path b c) as [|x s]; [congruence|reflexivity].
Qed.

(** ** [ascend] and [descend] *)


(** ** [insert] on a branch, then [ascend] and [descend] *)

(** Inserting a key of two bytes or more at a branch whose slot [k[0]] is
    empty pushes one leaf, which holds the rest of the key and the value;
    once [ascend] has recorded the hash of that leaf at [k[0]], descending
    from the branch with the key goes through the leaf, uses up the whole
    key and ends on the value, and the other slots answer as before. *)
Theorem branch_insert_then_lookup (b : branch) (k0 : byte) (k1 v : list byte)
        (stack : list patricia) :
  branch_Path b k0 = [] ->
  k1 <> [] ->
  exists L,
    branch_insert b (k0 :: k1) v stack = Returns (stack ++ [Leaf L], None) /\
    leaf_Path L = k1 /\
    leaf_blob L = (v, None) /\
    descends_to [Branch (fst (branch_ascend b (leaf_hash L) k0)); Leaf L]
                (k0 :: k1) v (length (k0 :: k1)) /\
    forall c rest,
      c <> k0 ->
      branch_descend (fst (branch_ascend b (leaf_hash L) k0)) (c :: rest) =
      branch_descend b (c :: rest).
Proof.
  intros Hslot Hk1.
  exists {| leaf_Ext := x00; leaf_Path := k1; leaf_Value := v |}.
  split; [|split; [|split; [|split]]].
  - unfold branch_insert. cbn [index nth_error bind]. rewrite Hslot.
    reflexivity.
  - reflexivity.
  - reflexivity.
  - cbn [descends_to patricia_descend patricia_hash]. exists 1.
    unfold branch_ascend. cbn [fst].
    rewrite make_copy_exact
      by (change (leaf_hash ?l) with (patricia_hash (Leaf l));
          apply patricia_hash_length).
    split; [|split].
    + rewrite branch_descend_slot; rewrite set_Path_same; [reflexivity|].
      intros E. pose proof (leaf_hash_occupied
                              {| leaf_Ext := x00; leaf_Path := k1; leaf_Value := v |}) as Ho.
      rewrite E in Ho. discriminate Ho.
    + cbn [length]. lia.
    + cbn [skipn length Nat.sub]. unfold leaf_descend. cbn [leaf_Path leaf_Value].
      rewrite <- (app_nil_r k1) at 2.
      rewrite descend_loop_arrives by exact Hk1.
      now rewrite Nat.sub_0_r.
  - intros c rest Hc. unfold branch_ascend, branch_descend.
    cbn [fst index nth_error bind]. now rewrite set_Path_other.
Qed.

Lemma branch_insert_then_lookup_witness :
  exists L,
    branch_insert branch_zero [x01; x02] ["a"%byte] [] =
      Returns ([] ++ [Leaf L], None) /\
    leaf_Path L = [x02] /\
    leaf_blob L = (["a"%byte], None) /\
    descends_to [Branch (fst (branch_ascend branch_zero (leaf_hash L) x01));
                 Leaf L]
                [x01; x02] ["a"%byte] (length [x01; x02]) /\
    forall c rest,
      c <> x01 ->
      branch_descend (fst (branch_ascend branch_zero (leaf_hash L) x01))
                     (c :: rest) =
      branch_descend branch_zero (c :: rest).
Proof.
  apply (branch_insert_then_lookup branch_zero x01 [x02] ["a"%byte] []).
  - reflexivity.
  - discriminate.
Defined.

(** A branch refuses a key whose first byte it already covers, and leaves
    the stack as it was; it panics on the empty key. *)
Theorem branch_insert_refuses (b : branch) (v : list byte)
        (stack : list patricia) :
  branch_insert b [] v stack = Panics /\
  forall k0 k1,
    branch_Path b k0 <> [] ->
    exists e, branch_insert b (k0 :: k1) v stack = Returns (stack, Some e) /\
              Cause e = ErrInvalidPatricia.
Proof.
  split; [reflexivity|]. intros k0 k1 H.
  unfold branch_insert. cbn [index nth_error bind].
  destruct (branch_Path b k0) as [|x s]; [congruence|].
  cbn [length Nat.ltb Nat.leb]. eexists. split; reflexivity.
Qed.

(** ** What [insert] on a leaf or an extension returns *)

Lemma descend_loop_returns (value path : list byte) :
  forall key n r c e,
    descend_loop value path key n = Returns (r, c, e) ->
    (e = None /\ r = value /\ c = n + length path /\ path <> [] /\
     exists t, key = path ++ t) \/
    (e = Some ErrPathDiverge /\ r = [] /\
     exists m, c = n + m /\ diverge_at path key m).
Proof.
  induction path as [|p path IH]; intros key n r c e H; [discriminate H|].
  destruct key as [|x key]; [discriminate H|]. cbn [descend_loop] in H.
  destruct (Byte.eqb p x) eqn:E.
  - apply eqb_eq in E as ->. destruct path as [|p' path].
    + injection H as <- <- <-. left.
      repeat split; try (cbn; lia); try discriminate. now exists key.
    + apply IH in H as [(-> & -> & -> & _ & t & ->) |
                        (-> & -> & m & -> & Hp & Hk & Hpre & Hne)].
      * left. repeat split; try (cbn [length]; lia); try discriminate.
        now exists t.
      * right. repeat split. exists (S m). cbn [length] in Hp.
        repeat split; cbn [length firstn]; try lia.
        -- now rewrite Hpre.
        -- exact Hne.
  - injection H as <- <- <-. right. repeat split. exists 0.
    apply eqb_neq in E. repeat split; cbn [length]; try lia. exact E.
Qed.

Lemma leaf_insert_at_divergence (l : leaf) (k v : list byte)
      (stack : list patricia) (m : nat) :
  diverge_at (leaf_Path l) k m ->
  (leaf_Ext l = x01 /\ length (leaf_Path l) = 1 /\
   leaf_insert l k v stack =
   Returns (stack, Some (Wrap ErrInvalidPatricia
                           "ext should not have path length = 1"%string))) \/
  (leaf_Ext l = x01 /\ length (leaf_Path l) <> 1 /\
   leaf_insert l k v stack =
   Returns (insert_top l m
              (patricia_hash (front_after_split (split_branch l k v m) stack))
            ++ split_stack l k v m stack, None)) \/
  (leaf_Ext l <> x01 /\
   leaf_insert l k v stack =
   Returns ((if 0 <? m then [Leaf (leaf_E l k v m)] else []) ++
            stack ++
            [Branch (leaf_B l k v m); Leaf (leaf_L1 l m); Leaf (leaf_L2 k v m)],
            None)).
Proof.
  intros Hdiv. destruct (Byte.eqb (leaf_Ext l) x01) eqn:E.
  - apply eqb_eq in E. destruct (Nat.eq_dec (length (leaf_Path l)) 1) as [H1|H1].
    + left. split; [exact E|]. split; [exact H1|].
      unfold leaf_insert. rewrite (match_loop_diverge m _ _ 0 Hdiv).
      cbn [Nat.add bind].
      destruct (diverge_at_bounds _ _ _ Hdiv) as (Hg & _).
      rewrite Hg, E, eqb_refl, H1. reflexivity.
    + right. left. split; [exact E|]. split; [exact H1|].
      now apply leaf_insert_extension.
  - right. right. split; [now apply eqb_neq|]. now apply leaf_insert_leaf.
Qed.

(** Whatever the node and the key, when [insert] returns the stack that
    was passed in is still there in one piece: unchanged with an error,
    and otherwise with at most one node in front of it and two or three
    nodes behind it, the last of which is a leaf that holds the value and
    the key from the byte after the divergence on. *)
Theorem leaf_insert_keeps_stack (l : leaf) (k v : list byte)
        (stack stack' : list patricia) (err : option error) :
  leaf_insert l k v stack = Returns (stack', err) ->
  exists top new,
    stack' = top ++ stack ++ new /\
    length top <= 1 /\
    (err <> None -> top = [] /\ new = []) /\
    (err = None ->
     2 <= length new <= 3 /\
     exists m L, diverge_at (leaf_Path l) k m /\
                 last new (Leaf l) = Leaf L /\
                 leaf_Ext L = x00 /\
                 leaf_Path L = skipn (m + 1) k /\
                 leaf_blob L = (v, None)).
Proof.
  intros H.
  destruct (match_loop (leaf_Path l) k 0) as [m|] eqn:Em;
    [|unfold leaf_insert in H; rewrite Em in H; discriminate H].
  apply match_loop_returns in Em as (m' & -> & Hdiv). cbn [Nat.add] in *.
  destruct (leaf_insert_at_divergence l k v stack m' Hdiv)
    as [(_ & _ & E) | [(_ & _ & E) | (_ & E)]];
    rewrite E in H; injection H as <- <-.
  - exists [], []. rewrite app_nil_r. cbn [app length].
    split; [reflexivity|]. split; [lia|]. split; [easy|]. discriminate.
  - exists (insert_top l m' (patricia_hash
                               (front_after_split (split_branch l k v m') stack))),
           ([Branch (split_branch l k v m')] ++
            helper_list (split_helper l m') ++ [Leaf (split_leaf k v m')]).
    split; [reflexivity|]. split; [|split; [congruence|]].
    + unfold insert_top. destruct (m' =? 1); [cbn; lia|].
      destruct (1 <? m'); cbn; lia.
    + intros _. split.
      * destruct (split_helper l m'); cbn; lia.
      * exists m', (split_leaf k v m'). split; [exact Hdiv|].
        split; [|repeat split].
        destruct (split_helper l m'); reflexivity.
  - exists (if 0 <? m' then [Leaf (leaf_E l k v m')] else []),
           [Branch (leaf_B l k v m'); Leaf (leaf_L1 l m'); Leaf (leaf_L2 k v m')].
    split; [reflexivity|]. split; [|split; [congruence|]].
    + destruct (0 <? m'); cbn; lia.
    + intros _. split; [cbn; lia|].
      exists m', (leaf_L2 k v m'). split; [exact Hdiv|]. repeat split.
Qed.

Lemma leaf_insert_keeps_stack_witness :
  exists top new,
    [Leaf (leaf_E leaf_12 [x01; x03] ["b"%byte] 1); Leaf ext_123;
     Branch (leaf_B leaf_12 [x01; x03] ["b"%byte] 1);
     Leaf (leaf_L1 leaf_12 1); Leaf (leaf_L2 [x01; x03] ["b"%byte] 1)] =
    top ++ [Leaf ext_123] ++ new /\
    length top <= 1 /\
    (@None error <> None -> top = [] /\ new = []) /\
    (@None error = None ->
     2 <= length new <= 3 /\
     exists m L, diverge_at (leaf_Path leaf_12) [x01; x03] m /\
                 last new (Leaf leaf_12) = Leaf L /\
                 leaf_Ext L = x00 /\
                 leaf_Path L = skipn (m + 1) [x01; x03] /\
                 leaf_blob L = (["b"%byte], None)).
Proof.
  apply (leaf_insert_keeps_stack leaf_12 [x01; x03] ["b"%byte] [Leaf ext_123]).
  reflexivity.
Defined.

(** ** [increase] and [insert] *)

(** On a leaf ([Ext = 0]), [increase] returns the numbers of branches,
    extensions and leaves that [insert] adds to the stack for the same
    key; so does [increase] on a branch, for a key that the branch
    accepts. *)
Theorem increase_counts_insert (l : leaf) (k v : list byte)
        (stack : list patricia) (m : nat) :
  leaf_Ext l = x00 ->
  diverge_at (leaf_Path l) k m ->
  (exists top new,
      leaf_insert l k v stack = Returns (top ++ stack ++ new, None) /\
      leaf_increase l k = Returns (count_nodes (top ++ new))) /\
  (forall b k0 k1,
      branch_Path b k0 = [] ->
      exists new,
        branch_insert b (k0 :: k1) v stack = Returns (stack ++ new, None) /\
        branch_increase b (k0 :: k1) = count_nodes new).
Proof.
  intros Hext Hdiv. split.
  - assert (Hext' : Byte.eqb (leaf_Ext l) x01 = false) by (now rewrite Hext).
    exists (if 0 <? m then [Leaf (leaf_E l k v m)] else []),
           [Branch (leaf_B l k v m); Leaf (leaf_L1 l m); Leaf (leaf_L2 k v m)].
    split; [now apply leaf_insert_leaf|].
    unfold leaf_increase. rewrite (match_loop_diverge m _ _ 0 Hdiv).
    cbn [Nat.add bind]. destruct (0 <? m); reflexivity.
  - intros b k0 k1 Hslot. eexists. split.
    + unfold branch_insert. cbn [index nth_error bind]. rewrite Hslot.
      reflexivity.
    + reflexivity.
Qed.

Lemma increase_counts_insert_witness :
  (exists top new,
      leaf_insert leaf_12 [x01; x03] ["b"%byte] [] =
        Returns (top ++ [] ++ new, None) /\
      leaf_increase leaf_12 [x01; x03] = Returns (count_nodes (top ++ new))) /\
  (forall b k0 k1,
      branch_Path b k0 = [] ->
      exists new,
        branch_insert b (k0 :: k1) ["b"%byte] [] = Returns ([] ++ new, None) /\
        branch_increase b (k0 :: k1) = count_nodes new).
Proof.
  exact (increase_counts_insert leaf_12 [x01; x03] ["b"%byte] [] 1
           eq_refl diverge_12_13).
Defined.

(** ** [descend] and [insert] on the same key *)

(** On a leaf or an extension, [insert] returns (with or without an error)
    exactly for the keys on which [descend] reports a divergence, and its
    loop stops at the position that [descend] reports; on a key that
    [descend] accepts, and on a key on which [descend] panics, [insert]
    and [increase] panic. *)
Theorem insert_returns_where_descend_diverges (l : leaf) (key v : list byte)
        (stack : list patricia) :
  ((exists s err, leaf_insert l key v stack = Returns (s, err)) <->
   (exists m, leaf_descend l key = Returns ([], m, Some ErrPathDiverge))) /\
  (forall r c e,
      leaf_descend l key = Returns (r, c, Some e) ->
      e = ErrPathDiverge /\ r = [] /\
      match_loop (leaf_Path l) key 0 = Returns c) /\
  (forall r c,
      leaf_descend l key = Returns (r, c, None) ->
      leaf_insert l key v stack = Panics /\ leaf_increase l key = Panics) /\
  (leaf_descend l key = Panics ->
   leaf_insert l key v stack = Panics /\ leaf_increase l key = Panics).
Proof.
  split; [split|split; [|split]].
  - intros (s & err & H).
    destruct (match_loop (leaf_Path l) key 0) as [m|] eqn:Em;
      [|unfold leaf_insert in H; rewrite Em in H; discriminate H].
    apply match_loop_returns in Em as (m' & -> & Hdiv).
    exists m'. unfold leaf_descend.
    now rewrite (descend_loop_diverges _ m' _ _ 0 Hdiv).
  - intros (m & H). unfold leaf_descend in H.
    apply descend_loop_returns in H
      as [(E & _) | (_ & _ & m' & _ & Hdiv)]; [discriminate E|].
    destruct (leaf_insert_at_divergence l key v stack m' Hdiv)
      as [(_ & _ & E) | [(_ & _ & E) | (_ & E)]]; rewrite E; eauto.
  - intros r c e H. unfold leaf_descend in H.
    apply descend_loop_returns in H
      as [(E & _) | (E & -> & m' & -> & Hdiv)]; [discriminate E|].
    injection E as <-. repeat split.
    now rewrite (match_loop_diverge m' _ _ 0 Hdiv).
  - intros r c H. unfold leaf_descend in H.
    apply descend_loop_returns in H
      as [(_ & _ & _ & _ & t & ->) | (E & _)]; [|discriminate E].
    unfold leaf_insert, leaf_increase. now rewrite match_loop_prefix.
  - intros H.
    destruct (match_loop (leaf_Path l) key 0) as [m|] eqn:Em.
    + apply match_loop_returns in Em as (m' & -> & Hdiv).
      unfold leaf_descend in H.
      rewrite (descend_loop_diverges _ m' _ _ 0 Hdiv) in H. discriminate H.
    + unfold leaf_insert, leaf_increase. now rewrite Em.
Qed.

(** On an extension that [insert] splits, [increase] does not give the
    numbers of the nodes that [insert] adds: it announces two leaves, and
    [insert] adds one. *)
Theorem increase_miscounts_extension (l : leaf) (k v : list byte)
        (stack : list patricia) (m : nat) :
  leaf_Ext l = x01 ->
  length (leaf_Path l) <> 1 ->
  diverge_at (leaf_Path l) k m ->
  exists top new nb ne,
    leaf_insert l k v stack = Returns (top ++ stack ++ new, None) /\
    leaf_increase l k = Returns (nb, ne, 2) /\
    length (filter is_leaf (top ++ new)) = 1.
Proof.
  intros Hext Hlen Hdiv.
  pose proof (leaf_insert_extension l k v stack m Hext Hlen Hdiv) as Hins.
  exists (insert_top l m (patricia_hash
                            (front_after_split (split_branch l k v m) stack))),
         ([Branch (split_branch l k v m)] ++
          helper_list (split_helper l m) ++ [Leaf (split_leaf k v m)]).
  unfold leaf_increase. rewrite (match_loop_diverge m _ _ 0 Hdiv).
  cbn [Nat.add bind].
  exists 1, (if 0 <? m then 1 else 0).
  split; [exact Hins|]. split; [now destruct (0 <? m)|].
  rewrite !filter_app, !length_app.
  assert (Htop : forall h, filter is_leaf (insert_top l m h) = []).
  { intros h. unfold insert_top.
    destruct (m =? 1); [reflexivity|]. destruct (1 <? m); reflexivity. }
  assert (Hhelp : filter is_leaf (helper_list (split_helper l m)) = []).
  { unfold split_helper.
    destruct (length (leaf_Path l) - m) as [|[|[|n]]]; reflexivity. }
  rewrite Htop, Hhelp. reflexivity.
Qed.

Lemma increase_miscounts_extension_witness :
  exists top new nb ne,
    leaf_insert ext_12345 [x01; x02; x09; x09; x09; x09] ["b"%byte] [] =
      Returns (top ++ [] ++ new, None) /\
    leaf_increase ext_12345 [x01; x02; x09; x09; x09; x09] = Returns (nb, ne, 2) /\
    length (filter is_leaf (top ++ new)) = 1.
Proof.
  apply (increase_miscounts_extension ext_12345
           [x01; x02; x09; x09; x09; x09] ["b"%byte] [] 2).
  - reflexivity.
  - cbn. lia.
  - exact diverge_12345_129.
Defined.

(** ** Looking up the keys after an [insert] *)

Lemma skipn_byte_at (q : list byte) (m : nat) :
  m < length q -> skipn m q = byte_at q m :: skipn (m + 1) q.
Proof.
  revert q. induction m as [|m IH]; intros q H;
    destruct q as [|x q]; cbn [length] in H; try lia.
  - reflexivity.
  - cbn [skipn Nat.add]. rewrite IH by lia. reflexivity.
Qed.

Lemma leaf_descend_prefix (e : leaf) (key : list byte) :
  leaf_Path e <> [] ->
  firstn (length (leaf_Path e)) key = leaf_Path e ->
  leaf_descend e key = Returns (leaf_Value e, length (leaf_Path e), None).
Proof.
  intros Hne Hpre. unfold leaf_descend.
  rewrite <- (firstn_skipn (length (leaf_Path e)) key) at 1.
  rewrite Hpre. now rewrite descend_loop_arrives.
Qed.

Lemma hash_not_nil (n : patricia) : patricia_hash n <> [].
Proof.
  intros E. pose proof (patricia_hash_length n) as H. rewrite E in H.
  discriminate H.
Qed.

(** A branch and the leaf that one of its slots points to. *)
Lemma branch_leaf_chain (B : branch) (L : leaf) (q : list byte) (m : nat) :
  m + 1 < length q ->
  branch_Path B (byte_at q m) = leaf_hash L ->
  leaf_Path L = skipn (m + 1) q ->
  descends_to [Branch B; Leaf L] (skipn m q) (leaf_Value L) (length q - m).
Proof.
  intros Hlen Hslot Hpath. rewrite skipn_byte_at by lia.
  cbn [descends_to patricia_descend patricia_hash]. exists 1.
  split; [|split].
  - rewrite branch_descend_slot; rewrite Hslot; [reflexivity|].
    apply (hash_not_nil (Leaf L)).
  - lia.
  - cbn [skipn]. rewrite leaf_descend_prefix.
    + rewrite Hpath, length_skipn. do 3 f_equal. lia.
    + rewrite Hpath. intros E. apply (f_equal (@length byte)) in E.
      rewrite length_skipn in E. cbn [length] in E. lia.
    + rewrite Hpath. apply firstn_all.
Qed.

(** The extension that [insert] puts in front of the nodes of a leaf. *)
Lemma leaf_top_chain (pre hash : list byte) (n : patricia)
      (rest : list patricia) (q target : list byte) (m : nat) :
  hash = patricia_hash n ->
  m <= length q ->
  pre = firstn m q ->
  descends_to (n :: rest) (skipn m q) target (length q - m) ->
  descends_to
    ((if 0 <? m
      then [Leaf {| leaf_Ext := x01; leaf_Path := pre; leaf_Value := hash |}]
      else []) ++ n :: rest) q target (length q).
Proof.
  intros -> Hm -> H. destruct m as [|m].
  - cbn [Nat.ltb Nat.leb app]. now rewrite Nat.sub_0_r in H.
  - cbn [Nat.ltb Nat.leb app]. cbn [descends_to patricia_descend].
    exists (S m). split; [|split; [exact Hm|exact H]].
    rewrite leaf_descend_prefix; cbn [leaf_Path leaf_Value].
    + rewrite length_firstn. do 3 f_equal. lia.
    + intros E. apply (f_equal (@length byte)) in E.
      rewrite length_firstn in E. cbn [length] in E. lia.
    + rewrite length_firstn.
      replace (Nat.min (S m) (length q)) with (S m) by lia. reflexivity.
Qed.

(** After [insert] has split a leaf, both keys are found again: when
    neither key ends right after the diverging byte, descending with the
    old key through the nodes that [insert] made (the extension, if any,
    the branch and the first leaf) uses up the whole key and ends on the
    old value, and descending with the new key (through the second leaf)
    uses up the whole key and ends on the new value. *)
Theorem leaf_insert_then_lookup (l : leaf) (k v : list byte)
        (stack : list patricia) (m : nat) :
  leaf_Ext l = x00 ->
  diverge_at (leaf_Path l) k m ->
  m + 1 < length (leaf_Path l) ->
  m + 1 < length k ->
  exists (E : list patricia) (B : branch) (L1 L2 : leaf),
    leaf_insert l k v stack =
      Returns (E ++ stack ++ [Branch B; Leaf L1; Leaf L2], None) /\
    descends_to (E ++ [Branch B; Leaf L1]) (leaf_Path l) (leaf_Value l)
                (length (leaf_Path l)) /\
    descends_to (E ++ [Branch B; Leaf L2]) k v (length k) /\
    leaf_blob L1 = (leaf_Value l, None) /\
    leaf_blob L2 = (v, None).
Proof.
  intros Hext Hdiv Hp1 Hk1.
  assert (Hext' : Byte.eqb (leaf_Ext l) x01 = false) by (now rewrite Hext).
  pose proof (leaf_insert_leaf l k v stack m Hext' Hdiv) as Hins.
  destruct Hdiv as (Hp & Hk & Hpre & Hne).
  exists (if 0 <? m then [Leaf (leaf_E l k v m)] else []),
         (leaf_B l k v m), (leaf_L1 l m), (leaf_L2 k v m).
  split; [exact Hins|]. split; [|split; [|split; reflexivity]].
  - apply (leaf_top_chain (firstn m k) _ (Branch (leaf_B l k v m)));
      [reflexivity|lia|now symmetry|].
    apply (branch_leaf_chain (leaf_B l k v m) (leaf_L1 l m));
      [exact Hp1| |reflexivity].
    unfold leaf_B. rewrite set_Path_other by exact Hne. apply set_Path_same.
  - apply (leaf_top_chain (firstn m k) _ (Branch (leaf_B l k v m)));
      [reflexivity|lia|reflexivity|].
    apply (branch_leaf_chain (leaf_B l k v m) (leaf_L2 k v m));
      [exact Hk1| |reflexivity].
    unfold leaf_B. apply set_Path_same.
Qed.

Lemma diverge_123_178 :
  diverge_at [x01; x02; x03] [x01; x07; x08] 1.
Proof. repeat split; cbn; try lia. discriminate. Qed.

Lemma leaf_insert_then_lookup_witness :
  exists (E : list patricia) (B : branch) (L1 L2 : leaf),
    leaf_insert leaf_123 [x01; x07; x08] ["b"%byte] [] =
      Returns (E ++ [] ++ [Branch B; Leaf L1; Leaf L2], None) /\
    descends_to (E ++ [Branch B; Leaf L1]) [x01; x02; x03] ["a"%byte] 3 /\
    descends_to (E ++ [Branch B; Leaf L2]) [x01; x07; x08] ["b"%byte] 3 /\
    leaf_blob L1 = (["a"%byte], None) /\
    leaf_blob L2 = (["b"%byte], None).
Proof.
  apply (leaf_insert_then_lookup leaf_123 [x01; x07; x08] ["b"%byte] [] 1).
  - reflexivity.
  - exact diverge_123_178.
  - cbn. lia.
  - cbn. lia.
Defined.

(** The node that [insert] puts in front of the split of an extension. *)
Lemma extension_top_chain (l : leaf) (B : branch) (rest : list patricia)
      (q target : list byte) (m consumed : nat) :
  m < length (leaf_Path l) ->
  m <= length q ->
  m <= consumed ->
  firstn m q = firstn m (leaf_Path l) ->
  descends_to (Branch B :: rest) (skipn m q) target (consumed - m) ->
  descends_to (insert_top l m (branch_hash B) ++ Branch B :: rest)
              q target consumed.
Proof.
  intros Hp Hq Hc Hpre H. unfold insert_top.
  destruct (Nat.eqb_spec m 1) as [->|Hm1].
  - cbn [app descends_to patricia_descend patricia_hash]. exists 1.
    split; [|split; [exact Hc|exact H]].
    destruct q as [|q0 q]; [cbn in Hq; lia|].
    destruct (leaf_Path l) as [|p0 P]; [cbn in Hp; lia|].
    cbn [firstn] in Hpre. injection Hpre as ->.
    unfold byte_at. cbn [nth].
    rewrite branch_descend_slot; rewrite set_Path_same; [reflexivity|].
    apply (hash_not_nil (Branch B)).
  - destruct (Nat.ltb_spec 1 m) as [Hm|Hm].
    + cbn [app descends_to patricia_descend patricia_hash]. exists m.
      split; [|split; [exact Hc|exact H]].
      rewrite leaf_descend_prefix; cbn [leaf_Path leaf_Value].
      * rewrite length_firstn. do 3 f_equal. lia.
      * intros E. apply (f_equal (@length byte)) in E.
        rewrite length_firstn in E. cbn [length] in E. lia.
      * rewrite length_firstn.
        replace (Nat.min m (length (leaf_Path l))) with m by lia.
        exact Hpre.
    + assert (m = 0) as -> by lia. cbn [app].
      now rewrite Nat.sub_0_r in H.
Qed.

(** The branch of the split and what it leads to on the old path. *)
Lemma split_old_chain (l : leaf) (k v t : list byte) (m : nat) :
  m < length (leaf_Path l) ->
  leaf_Value l <> [] ->
  descends_to (Branch (split_branch l k v m) :: helper_list (split_helper l m))
              (skipn m (leaf_Path l ++ t)) (leaf_Value l)
              (length (leaf_Path l) - m).
Proof.
  intros Hp Hv.
  assert (Hq : skipn m (leaf_Path l ++ t) =
               byte_at (leaf_Path l) m :: skipn (m + 1) (leaf_Path l) ++ t).
  { rewrite skipn_app.
    replace (m - length (leaf_Path l)) with 0 by lia. cbn [skipn].
    now rewrite skipn_byte_at by exact Hp. }
  rewrite Hq. unfold split_branch, split_link, split_helper.
  destruct (length (leaf_Path l) - m) as [|[|[|n]]] eqn:Hlen; [lia| | |].
  - cbn [helper_list descends_to patricia_descend].
    rewrite branch_descend_slot; rewrite set_Path_same; [reflexivity|exact Hv].
  - cbn [helper_list descends_to patricia_descend patricia_hash]. exists 1.
    split; [|split; [lia|]].
    + rewrite branch_descend_slot; rewrite set_Path_same; [reflexivity|].
      apply (hash_not_nil (Branch _)).
    + cbn [skipn Nat.sub].
      rewrite (skipn_byte_at (leaf_Path l) (m + 1)) by lia. cbn [app].
      rewrite branch_descend_slot; rewrite set_Path_same; [reflexivity|exact Hv].
  - cbn [helper_list descends_to patricia_descend patricia_hash]. exists 1.
    split; [|split; [lia|]].
    + rewrite branch_descend_slot; rewrite set_Path_same; [reflexivity|].
      apply (hash_not_nil (Leaf _)).
    + cbn [skipn Nat.sub]. rewrite leaf_descend_prefix; cbn [leaf_Path leaf_Value].
      * rewrite length_skipn. do 3 f_equal. lia.
      * intros E. apply (f_equal (@length byte)) in E.
        rewrite length_skipn in E. cbn [length] in E. lia.
      * rewrite firstn_app, Nat.sub_diag, firstn_all. cbn [firstn].
        apply app_nil_r.
Qed.

(** After [insert] has split an extension (on an empty stack), the old
    path and the new key are both found again: descending with any key
    that starts with the path of the extension, through the nodes that
    [insert] made, uses up that path and ends on the child hash of the
    extension; descending with the new key, when it does not end right
    after the diverging byte, uses up the whole key and ends on the new
    value. *)
Theorem extension_insert_then_lookup (l : leaf) (k v : list byte) (m : nat) :
  leaf_Ext l = x01 ->
  length (leaf_Path l) <> 1 ->
  leaf_Value l <> [] ->
  diverge_at (leaf_Path l) k m ->
  m + 1 < length k ->
  exists (top : list patricia) (B : branch) (helper : list patricia) (L : leaf),
    leaf_insert l k v [] =
      Returns (top ++ [Branch B] ++ helper ++ [Leaf L], None) /\
    (forall t, descends_to (top ++ [Branch B] ++ helper) (leaf_Path l ++ t)
                           (leaf_Value l) (length (leaf_Path l))) /\
    descends_to (top ++ [Branch B; Leaf L]) k v (length k) /\
    leaf_blob L = (v, None).
Proof.
  intros Hext Hlen Hv Hdiv Hk1.
  pose proof (leaf_insert_extension l k v [] m Hext Hlen Hdiv) as Hins.
  destruct Hdiv as (Hp & Hk & Hpre & Hne).
  exists (insert_top l m (branch_hash (split_branch l k v m))),
         (split_branch l k v m), (helper_list (split_helper l m)),
         (split_leaf k v m).
  split; [exact Hins|]. split; [|split; [|reflexivity]].
  - intros t. cbn [app].
    apply extension_top_chain; try lia.
    + rewrite length_app. lia.
    + rewrite firstn_app.
      replace (m - length (leaf_Path l)) with 0 by lia.
      cbn [firstn]. apply app_nil_r.
    + now apply split_old_chain.
  - apply extension_top_chain; try lia; [now symmetry|].
    apply (branch_leaf_chain (split_branch l k v m) (split_leaf k v m));
      [exact Hk1| |reflexivity].
    unfold split_branch.
    rewrite set_Path_other by (intros E; apply Hne; now rewrite E).
    apply set_Path_same.
Qed.

Lemma extension_insert_then_lookup_witness :
  exists (top : list patricia) (B : branch) (helper : list patricia) (L : leaf),
    leaf_insert ext_12345 [x01; x02; x09; x09; x09; x09] ["b"%byte] [] =
      Returns (top ++ [Branch B] ++ helper ++ [Leaf L], None) /\
    (forall t, descends_to (top ++ [Branch B] ++ helper)
                           ([x01; x02; x03; x04; x05] ++ t)
                           ["a"; "a"; "a"]%byte 5) /\
    descends_to (top ++ [Branch B; Leaf L]) [x01; x02; x09; x09; x09; x09]
                ["b"%byte] 6 /\
    leaf_blob L = (["b"%byte], None).
Proof.
  apply (extension_insert_then_lookup ext_12345
           [x01; x02; x09; x09; x09; x09] ["b"%byte] 2).
  - reflexivity.
  - cbn. lia.
  - discriminate.
  - exact diverge_12345_129.
  - cbn. lia.
Defined.

(** ** [collapse] after a deletion and the way down *)

(** When the deletion of the child at slot [i] leaves a branch with the
    only child [j], the branch hands up the key [[j]] and the hash of that
    child, and an extension (or leaf) above it that is told so puts its
    own path in front.  The key so handed up is the one that [descend]
    used up on the way from that extension through the branch down to the
    child. *)
Theorem collapse_hands_up_descended_path (e : leaf) (b : branch)
        (i j idx : byte) (k t : list byte) :
  leaf_Path e <> [] ->
  leaf_Value e = branch_hash b ->
  only_slot (branch_trim b i) j ->
  branch_collapse b k None i true =
    (branch_trim b i, ([j], Some (branch_Path b j), true)) /\
  leaf_collapse e [j] (Some (branch_Path b j)) idx true =
    (leaf_Path e ++ [j], Some (branch_Path b j), true) /\
  descends_to [Leaf e; Branch b] ((leaf_Path e ++ [j]) ++ t)
              (branch_Path b j) (length (leaf_Path e ++ [j])).
Proof.
  intros Hp Hv Hone.
  assert (Hji : j <> i).
  { intros ->. destruct Hone as [H _]. unfold branch_trim in H.
    rewrite set_Path_same in H. cbn in H. lia. }
  assert (Hslot : branch_Path (branch_trim b i) j = branch_Path b j)
    by (unfold branch_trim; now rewrite set_Path_other).
  split; [|split].
  - rewrite (branch_collapse_one b k None i j Hone).
    cbn [collapse_branch collapse_key app]. now rewrite Hslot.
  - reflexivity.
  - cbn [descends_to patricia_descend patricia_hash].
    exists (length (leaf_Path e)). split; [|split].
    + rewrite leaf_descend_prefix; [now rewrite Hv|exact Hp|].
      rewrite <- !app_assoc, firstn_app, Nat.sub_diag, firstn_all.
      cbn [firstn]. apply app_nil_r.
    + rewrite length_app. lia.
    + rewrite <- !app_assoc, skipn_app, Nat.sub_diag, skipn_all.
      cbn [app skipn]. rewrite length_app. cbn [length].
      replace (length (leaf_Path e) + 1 - length (leaf_Path e)) with 1 by lia.
      apply branch_descend_slot. rewrite <- Hslot.
      destruct Hone as [H _]. intros E. rewrite E in H. cbn in H. lia.
Qed.

Lemma collapse_hands_up_descended_path_witness :
  branch_collapse two_children [x05] None x01 true =
    (branch_trim two_children x01, ([x02], Some (branch_Path two_children x02), true)) /\
  leaf_collapse ext_over_two_children [x02]
                (Some (branch_Path two_children x02)) x00 true =
    (leaf_Path ext_over_two_children ++ [x02],
     Some (branch_Path two_children x02), true) /\
  descends_to [Leaf ext_over_two_children; Branch two_children]
              ((leaf_Path ext_over_two_children ++ [x02]) ++ [x07])
              (branch_Path two_children x02)
              (length (leaf_Path ext_over_two_children ++ [x02])).
Proof.
  apply (collapse_hands_up_descended_path ext_over_two_children two_children
           x01 x02 x00 [x05] [x07]).
  - discriminate.
  - reflexivity.
  - exact two_children_trimmed.
Defined.

(** * Properties of the DID document *)

Module did_facts.

Import did.

Lemma store_app {A : Type} (kept s : list A) (x y : A) :
  store (kept ++ y :: s) (length kept) x = kept ++ x :: s.
Proof.
  induction kept as [|z kept IH]; cbn [app length store]; [reflexivity|].
  now rewrite IH.
Qed.

Lemma others_length (id : string) (services : list serviceStruct) :
  length (others id services) <= length services.
Proof. apply filter_length_le. Qed.

(** The loop of [RemoveService], with [kept] already stored and [r] places
    left in the slice. *)
Lemma remove_loop_spec (id : string) (rest : list serviceStruct) :
  forall kept r,
    remove_loop id rest (kept ++ repeat service_zero r) (length kept) =
    if length (others id rest) <=? r then
      Some (kept ++ others id rest ++
                 repeat service_zero (r - length (others id rest)))
    else None.
Proof.
  induction rest as [|s rest IH]; intros kept r.
  - cbn [remove_loop others filter length app Nat.leb]. now rewrite Nat.sub_0_r.
  - cbn [remove_loop others filter].
    destruct (negb (String.eqb (service_ID s) id)) eqn:E.
    + fold (others id rest). cbn [length].
      rewrite length_app, repeat_length.
      destruct r as [|r].
      * replace (length kept =? length kept + 0) with true
          by (symmetry; apply Nat.eqb_eq; lia).
        reflexivity.
      * replace (length kept =? length kept + S r) with false
          by (symmetry; apply Nat.eqb_neq; lia).
        cbn [repeat]. rewrite store_app.
        replace (kept ++ s :: repeat service_zero r)
          with ((kept ++ [s]) ++ repeat service_zero r)
          by (now rewrite <- app_assoc).
        replace (S (length kept)) with (length (kept ++ [s]))
          by (rewrite length_app; cbn; lia).
        rewrite IH. cbn [Nat.leb Nat.sub].
        destruct (length (others id rest) <=? r); [|reflexivity].
        now rewrite <- app_assoc.
    + fold (others id rest). apply IH.
Qed.

Lemma RemoveService_cases (doc : Doc) (tag : string) :
  let id := service_id doc tag in
  let kept := others id (doc_Service doc) in
  (length kept = length (doc_Service doc) ->
   RemoveService doc tag = (doc, Some (ErrorsNew "service not exists"))) /\
  (length kept < length (doc_Service doc) ->
   RemoveService doc tag =
   (set_Service doc
      (kept ++ repeat service_zero
                      (length (doc_Service doc) - 1 - length kept)), None) /\
   length (doc_Service (fst (RemoveService doc tag))) =
   length (doc_Service doc) - 1) /\
  (length kept + 1 = length (doc_Service doc) ->
   RemoveService doc tag = (set_Service doc kept, None)).
Proof.
  cbv zeta. unfold RemoveService.
  pose proof (remove_loop_spec (service_id doc tag) (doc_Service doc) []
                (length (doc_Service doc) - 1)) as H.
  cbn [app length] in H.
  pose proof (others_length (service_id doc tag) (doc_Service doc)) as Hle.
  split; [|split].
  - intros E. destruct (Nat.eqb_spec (length (doc_Service doc)) 0);
      [reflexivity|].
    rewrite H.
    destruct (Nat.leb_spec (length (others (service_id doc tag) (doc_Service doc)))
                           (length (doc_Service doc) - 1)); [lia|reflexivity].
  - intros E. destruct (Nat.eqb_spec (length (doc_Service doc)) 0); [lia|].
    rewrite H.
    destruct (Nat.leb_spec (length (others (service_id doc tag) (doc_Service doc)))
                           (length (doc_Service doc) - 1)); [|lia].
    split; [reflexivity|]. cbn [fst set_Service doc_Service].
    rewrite length_app, repeat_length. lia.
  - intros E. destruct (Nat.eqb_spec (length (doc_Service doc)) 0); [lia|].
    rewrite H.
    destruct (Nat.leb_spec (length (others (service_id doc tag) (doc_Service doc)))
                           (length (doc_Service doc) - 1)); [|lia].
    replace (length (doc_Service doc) - 1 -
             length (others (service_id doc tag) (doc_Service doc))) with 0
      by lia.
    cbn [repeat]. now rewrite app_nil_r.
Qed.

(** [RemoveService] returns its error exactly when no service has the
    identifier (so also on a document without services), and then leaves
    the document as it was.  Otherwise the services become the other
    services, in their order, followed by one zero-valued service for
    every further service that had the identifier: the new list is always
    one shorter than the old one. *)
Theorem RemoveService_spec (doc : Doc) (tag : string) :
  let id := service_id doc tag in
  let kept := others id (doc_Service doc) in
  (length kept = length (doc_Service doc) ->
   RemoveService doc tag = (doc, Some (ErrorsNew "service not exists"))) /\
  (length kept < length (doc_Service doc) ->
   RemoveService doc tag =
   (set_Service doc
      (kept ++ repeat service_zero
                      (length (doc_Service doc) - 1 - length kept)), None) /\
   length (doc_Service (fst (RemoveService doc tag))) =
   length (doc_Service doc) - 1) /\
  (length kept + 1 = length (doc_Service doc) ->
   RemoveService doc tag = (set_Service doc kept, None)).
Proof. exact (RemoveService_cases doc tag). Qed.

Lemma update_service_none (id ty ep : string) (l : list serviceStruct) :
  update_service id ty ep l = None <-> others id l = l.
Proof.
  induction l as [|s l IH]; cbn [update_service others filter]; [easy|].
  fold (others id l).
  destruct (String.eqb (service_ID s) id) eqn:E; cbn [negb].
  - split; [discriminate|]. intros H.
    pose proof (others_length id l) as Hle. rewrite H in Hle.
    cbn [length] in Hle. lia.
  - destruct (update_service id ty ep l).
    + split; [discriminate|]. intros H. injection H as H.
      apply IH in H. discriminate H.
    + split; [|reflexivity]. intros _. f_equal. now apply IH.
Qed.

Lemma update_service_some (id ty ep : string) (l l' : list serviceStruct) :
  update_service id ty ep l = Some l' ->
  map service_ID l' = map service_ID l /\
  others id l' = others id l /\
  (exists s, In s l' /\ service_ID s = id /\ service_Type s = ty /\
             service_ServiceEndpoint s = ep) /\
  forall ty2 ep2, update_service id ty2 ep2 l' = update_service id ty2 ep2 l.
Proof.
  revert l'. induction l as [|s l IH]; intros l' H; [discriminate H|].
  cbn [update_service] in H.
  destruct (String.eqb (service_ID s) id) eqn:E.
  - injection H as <-. cbn [map others filter service_ID]. rewrite E.
    cbn [negb]. split; [reflexivity|]. split; [reflexivity|]. split.
    + eexists. split; [now left|]. cbn. apply String.eqb_eq in E. auto.
    + intros ty2 ep2. cbn [update_service service_ID]. now rewrite E.
  - destruct (update_service id ty ep l) as [r|] eqn:U; [|discriminate H].
    injection H as <-.
    destruct (IH r eq_refl) as (Hm & Ho & (x & Hin & Hx) & Hup).
    cbn [map others filter]. rewrite E. cbn [negb]. fold (others id r).
    fold (others id l). rewrite Hm, Ho.
    split; [reflexivity|]. split; [reflexivity|]. split.
    + exists x. split; [now right|exact Hx].
    + intros ty2 ep2. cbn [update_service]. now rewrite E, Hup.
Qed.

Lemma update_service_app (id ty ep : string) (l : list serviceStruct)
      (s : serviceStruct) :
  others id l = l -> service_ID s = id ->
  update_service id ty ep (l ++ [s]) =
  Some (l ++ [ {| service_ID := service_ID s; service_Type := ty;
                  service_ServiceEndpoint := ep;
                  service_RecipientKeys := service_RecipientKeys s;
                  service_Accept := service_Accept s |} ]).
Proof.
  intros Hl Hs. induction l as [|x l IH]; cbn [app update_service].
  - apply String.eqb_eq in Hs. now rewrite Hs.
  - cbn [others filter] in Hl. fold (others id l) in Hl.
    destruct (String.eqb (service_ID x) id) eqn:E; cbn [negb] in Hl.
    + pose proof (others_length id l) as Hle. rewrite Hl in Hle.
      cbn [length] in Hle. lia.
    + injection Hl as Hl. now rewrite (IH Hl).
Qed.

Lemma others_app (id : string) (l1 l2 : list serviceStruct) :
  others id (l1 ++ l2) = others id l1 ++ others id l2.
Proof. apply filter_app. Qed.

(** What is known of the services after [AddService d tag ty ep]. *)
Lemma AddService_cases (d : Doc) (tag ty ep : string) :
  let id := service_id d tag in
  (others id (doc_Service d) = doc_Service d /\
   AddService d tag ty ep =
   set_Service d (doc_Service d ++ [new_service d id ty ep])) \/
  (others id (doc_Service d) <> doc_Service d /\
   exists l', update_service id ty ep (doc_Service d) = Some l' /\
              AddService d tag ty ep = set_Service d l').
Proof.
  cbv zeta. unfold AddService.
  destruct (doc_Service d) as [|s l] eqn:Es.
  - left. split; reflexivity.
  - rewrite <- Es.
    destruct (update_service (service_id d tag) ty ep (doc_Service d))
      as [l'|] eqn:U.
    + right. split; [|now exists l'].
      intros H. apply (update_service_none _ ty ep) in H. congruence.
    + left. split; [|reflexivity]. now apply (update_service_none _ ty ep).
Qed.

(** After [AddService] there is a service with the identifier
    [doc.ID + "#" + tag], the type and the endpoint; the other services
    are as before, in their order; the identifiers of the services are as
    before when one of them was the identifier, and else have it added at
    the end (so that they stay distinct); the rest of the document is as
    before; and a second call for the same tag has the last word: the
    result is that of the second call alone. *)
Theorem AddService_spec (d : Doc) (tag ty ep : string) :
  let id := service_id d tag in
  let d' := AddService d tag ty ep in
  (exists s, In s (doc_Service d') /\ service_ID s = id /\
             service_Type s = ty /\ service_ServiceEndpoint s = ep) /\
  others id (doc_Service d') = others id (doc_Service d) /\
  (others id (doc_Service d) <> doc_Service d ->
   map service_ID (doc_Service d') = map service_ID (doc_Service d)) /\
  (others id (doc_Service d) = doc_Service d ->
   map service_ID (doc_Service d') = map service_ID (doc_Service d) ++ [id]) /\
  (NoDup (map service_ID (doc_Service d)) ->
   NoDup (map service_ID (doc_Service d'))) /\
  set_Service d' (doc_Service d) = set_Service d (doc_Service d) /\
  forall ty2 ep2, AddService d' tag ty2 ep2 = AddService d tag ty2 ep2.
Proof.
  cbv zeta.
  assert (Hid : forall l, service_id (set_Service d l) tag = service_id d tag)
    by reflexivity.
  assert (Hno : others (service_id d tag)
                       [new_service d (service_id d tag) ty ep] = []).
  { cbn [others filter new_service service_ID].
    now rewrite String.eqb_refl. }
  destruct (AddService_cases d tag ty ep) as [[Ho E] | (Ho & l' & U & E)];
    rewrite E; cbn [doc_Service set_Service].
  - split; [|split; [|split; [|split; [|split; [|split]]]]].
    + eexists. split; [apply in_or_app; right; now left|]. repeat split.
    + now rewrite others_app, Hno, app_nil_r.
    + congruence.
    + intros _. now rewrite map_app.
    + intros Hnd. rewrite map_app. cbn [map new_service service_ID].
      apply NoDup_app; [exact Hnd|repeat constructor; easy|].
      intros x Hx [<-|[]]. apply in_map_iff in Hx as (s & Hs & Hin).
      rewrite <- Ho in Hin. apply filter_In in Hin as [_ Hf].
      apply String.eqb_eq in Hs. rewrite Hs in Hf. discriminate Hf.
    + reflexivity.
    + intros ty2 ep2.
      destruct (AddService_cases d tag ty2 ep2) as [[_ E2] | (Ho2 & _)];
        [|congruence].
      rewrite E2. unfold AddService. rewrite Hid. cbn [doc_Service set_Service].
      rewrite (update_service_app (service_id d tag) ty2 ep2 (doc_Service d)
                 (new_service d (service_id d tag) ty ep) Ho eq_refl).
      destruct (doc_Service d ++ [new_service d (service_id d tag) ty ep])
        eqn:Ea; [now destruct (doc_Service d)|].
      reflexivity.
  - destruct (update_service_some _ _ _ _ _ U) as (Hm & Ho' & Hex & Hup).
    split; [|split; [|split; [|split; [|split; [|split]]]]].
    + exact Hex.
    + exact Ho'.
    + intros _. exact Hm.
    + congruence.
    + now rewrite Hm.
    + reflexivity.
    + intros ty2 ep2. unfold AddService. rewrite Hid.
      cbn [doc_Service set_Service]. rewrite Hup.
      destruct l' as [|x l']; [discriminate Hm || (destruct (doc_Service d); discriminate)|].
      destruct (doc_Service d) as [|y l] eqn:Ed; [discriminate U|].
      destruct (update_service (service_id d tag) ty2 ep2 (y :: l)) eqn:U2.
      * reflexivity.
      * apply update_service_none in U2. now rewrite <- Ed in *.
Qed.

(** Adding a service under a tag that no service of the document has and
    removing it again gives the document back, without an error. *)
Theorem AddService_then_RemoveService (d : Doc) (tag ty ep : string) :
  others (service_id d tag) (doc_Service d) = doc_Service d ->
  RemoveService (AddService d tag ty ep) tag = (d, None).
Proof.
  intros Ho.
  destruct (AddService_cases d tag ty ep) as [[_ E] | (Hn & _)];
    [|congruence].
  rewrite E.
  destruct (RemoveService_cases
              (set_Service d (doc_Service d ++
                                [new_service d (service_id d tag) ty ep])) tag)
    as (_ & _ & H).
  assert (Hk : others (service_id d tag)
                      (doc_Service d ++ [new_service d (service_id d tag) ty ep])
               = doc_Service d).
  { rewrite others_app, Ho. cbn [others filter new_service service_ID].
    rewrite String.eqb_refl. apply app_nil_r. }
  cbn [doc_Service set_Service] in H.
  change (service_id (set_Service d ?l) tag) with (service_id d tag) in H.
  rewrite Hk in H. rewrite H.
  - now destruct d.
  - rewrite length_app. reflexivity.
Qed.

Lemma AddService_then_RemoveService_witness :
  RemoveService (AddService doc_ab "c" "t" "e") "c" = (doc_ab, None).
Proof.
  apply (AddService_then_RemoveService doc_ab "c" "t" "e"). reflexivity.
Defined.

Lemma substring_all (s : string) : String.substring 0 (String.length s) s = s.
Proof. induction s as [|c s IH]; cbn; [reflexivity|now rewrite IH]. Qed.

(** [Owner] panics on a document whose identifier is shorter than the
    seven bytes of [DIDPrefix]; on an identifier made of [DIDPrefix] and
    [hex] it returns [HexToAddress(hex)]; it does not look at the seven
    bytes that it skips. *)
Theorem Owner_spec {address : Type} (HexToAddress : string -> address)
        (d : Doc) :
  (String.length (doc_ID d) < 7 -> Owner HexToAddress d = Panics) /\
  (forall hex, doc_ID d = (DIDPrefix ++ hex)%string ->
               Owner HexToAddress d = Returns (HexToAddress hex)) /\
  (forall c1 c2 c3 c4 c5 c6 c7 hex,
      doc_ID d =
      String c1 (String c2 (String c3 (String c4 (String c5 (String c6
        (String c7 hex)))))) ->
      Owner HexToAddress d = Returns (HexToAddress hex)).
Proof.
  unfold Owner, string_from. split; [|split].
  - intros H. destruct (Nat.leb_spec 7 (String.length (doc_ID d))); [lia|].
    reflexivity.
  - intros hex ->. cbn [DIDPrefix String.append String.length Nat.leb].
    cbn [bind Nat.sub String.substring].
    now rewrite Nat.sub_0_r, substring_all.
  - intros c1 c2 c3 c4 c5 c6 c7 hex ->. cbn [String.length Nat.leb].
    cbn [bind Nat.sub String.substring].
    now rewrite Nat.sub_0_r, substring_all.
Qed.

End did_facts.
